(** * Traffic-Simulation: the grid engine of [app/models.py] and
    [app/simulator.py], embedded and checked against its specification.

  Python integers are unbounded, so every integer of the program is a [Z].
  Grid positions are the pairs [(x, y)] of the source.  Directions and
  light colours stay the strings the source compares against.  The
  [intersections] dictionary is a [gmap] from positions, the
  [new_positions] and [road_cells] sets are [gset]s, and [self.cars] is a
  list whose elements are mutated in place, i.e. updated by index. *)

From Stdlib Require Import ZArith String List Lia.
From stdpp Require Import base gmap strings list fin_maps.

Local Open Scope string_scope.
Local Open Scope Z_scope.

Abbreviation pos := (Z * Z)%type.

(** ** [app/models.py] *)

Module Car.

Record t : Type := mk {
  id : Z;
  position : pos;
  direction : string;
  destination : option pos;
  path : list pos
}.

(** [Car.__init__]: [path or []] turns a missing path into the empty list. *)
Definition init (car_id : Z) (p : pos) (d : string)
    (dest : option pos) (route : option (list pos)) : t :=
  mk car_id p d dest (default [] route).

Definition set_position (c : t) (p : pos) : t :=
  mk (id c) p (direction c) (destination c) (path c).

(** [Car.move]: one step along the direction; any other string falls
    through the [if]/[elif] chain and leaves the car where it is. *)
Definition move (c : t) : t :=
  let '(x, y) := position c in
  if String.eqb (direction c) "N" then set_position c (x, y - 1)
  else if String.eqb (direction c) "S" then set_position c (x, y + 1)
  else if String.eqb (direction c) "E" then set_position c (x + 1, y)
  else if String.eqb (direction c) "W" then set_position c (x - 1, y)
  else c.

End Car.

Module Intersection.

(** The [light_state] dictionary always carries exactly the two keys
    ['NS'] and ['EW'] (the constructor's documented argument shape), so
    it is a record of the two colour strings. *)
Record lights : Type := mk_lights { NS : string; EW : string }.

Record t : Type := mk {
  position : pos;
  light_state : lights;
  cycle_length : Z;
  timer : Z
}.

(** [Intersection.__init__]. *)
Definition init (p : pos) (initial_state : option lights) (cycle : Z) : t :=
  mk p
     (match initial_state with
      | None => mk_lights "green" "red"
      | Some st => st
      end)
     cycle 0.

(** [Intersection.update_light]. *)
Definition update_light (i : t) : t :=
  let timer' := timer i + 1 in
  if timer' >=? cycle_length i then
    let ls :=
      if String.eqb (NS (light_state i)) "green"
      then mk_lights "red" "green"
      else mk_lights "green" "red" in
    mk (position i) ls (cycle_length i) 0
  else mk (position i) (light_state i) (cycle_length i) timer'.

(** [Intersection.is_green]. *)
Definition is_green (i : t) (d : string) : bool :=
  if String.eqb d "N" || String.eqb d "S"
  then String.eqb (NS (light_state i)) "green"
  else if String.eqb d "E" || String.eqb d "W"
  then String.eqb (EW (light_state i)) "green"
  else false.

(** The two legal dictionaries: one axis green, the other red. *)
Definition one_green (ls : lights) : Prop :=
  (NS ls = "green" ∧ EW ls = "red") ∨ (NS ls = "red" ∧ EW ls = "green").

(** NS and EW exchange their colours. *)
Definition swap (ls : lights) : lights := mk_lights (EW ls) (NS ls).

(** The intersection after [n] calls of [update_light]. *)
Definition after_calls (n : nat) (i : t) : t := Nat.iter n update_light i.

End Intersection.

Module RoadNetwork.

Record t : Type := mk {
  grid_size : Z;
  road_cells : gset pos
}.

(** [RoadNetwork.__init__]: the layout is never filled in. *)
Definition init (gs : Z) : t := mk gs ∅.

Definition is_road (r : t) (p : pos) : bool := bool_decide (p ∈ road_cells r).

Definition get_neighbors (r : t) (p : pos) : list pos := [].

End RoadNetwork.

(** ** The random source of [Simulator.__init__]

    [random] is a global generator; here it is an explicit, finite supply of
    raw draws.  [randint a b] maps a draw into [[a, b]] and [choice] picks an
    element of a list.  A supply that runs dry while the placement loop is
    still retrying is the observation that the loop has not ended yet. *)

Inductive exn : Type := ValueError.

Inductive outcome (A : Type) : Type :=
| Returned (a : A)
| Raised (e : exn)
| Looping.
Arguments Returned {A} a.
Arguments Raised {A} e.
Arguments Looping {A}.

Definition randint (a b : Z) (raw : nat) : Z := a + Z.of_nat raw mod (b - a + 1).

Definition choice (l : list string) (raw : nat) : string :=
  nth (raw mod length l)%nat l "".

(** [range(0, n, 3)]. *)
Definition range3 (n : Z) : list Z :=
  map (fun k => 3 * Z.of_nat k) (seq 0 (Z.to_nat ((n + 2) / 3))).

(** ** [app/simulator.py] *)

Module Simulator.

Record t : Type := mk {
  grid_size : Z;
  time_step : Z;
  cars : list Car.t;
  intersections : gmap pos Intersection.t;
  road_network : RoadNetwork.t
}.

Definition with_cars (self : t) (cs : list Car.t) : t :=
  mk (grid_size self) (time_step self) cs (intersections self) (road_network self).

(** The nested [range(0, grid_size, 3)] loops of the constructor. *)
Definition place_intersections (gs cycle : Z) : gmap pos Intersection.t :=
  foldl (fun m x =>
           foldl (fun m' y => <[(x, y) := Intersection.init (x, y) None cycle]> m')
                 m (range3 gs))
        ∅ (range3 gs).

(** [pos not in self.intersections and all(car.position != pos ...)]. *)
Definition is_free (ints : gmap pos Intersection.t) (cs : list Car.t) (p : pos) : bool :=
  match ints !! p with
  | Some _ => false
  | None => forallb (fun car => negb (bool_decide (Car.position car = p))) cs
  end.

(** The car-placement loop: [remaining] cars are still to be created, the
    next one gets id [i].  Each attempt draws [x] and [y]; an accepted
    attempt draws the direction as well. *)
Fixpoint place_cars (gs : Z) (ints : gmap pos Intersection.t)
    (remaining : nat) (i : Z) (cs : list Car.t) (draws : list nat)
    {struct draws} : outcome (list Car.t) :=
  match remaining with
  | O => Returned cs
  | S k =>
    if gs - 1 <? 0 then Raised ValueError
    else
      match draws with
      | rx :: ry :: rest =>
        let p := (randint 0 (gs - 1) rx, randint 0 (gs - 1) ry) in
        if is_free ints cs p then
          match rest with
          | rd :: rest' =>
            place_cars gs ints k (i + 1)
              (cs ++ [Car.init i p (choice ["N"; "S"; "E"; "W"] rd) None None])
              rest'
          | [] => Looping
          end
        else place_cars gs ints (S k) i cs rest
      | _ => Looping
      end
  end.

(** [Simulator.__init__].  The defaults [GRID_SIZE] and [NUM_CARS] of
    [app/config.py] are not part of the sources at hand; the three
    arguments are always given. *)
Definition init (gs num_cars cycle : Z) (draws : list nat) : outcome t :=
  let ints := place_intersections gs cycle in
  match place_cars gs ints (Z.to_nat num_cars) 0 [] draws with
  | Returned cs => Returned (mk gs 0 cs ints (RoadNetwork.init gs))
  | Raised e => Raised e
  | Looping => Looping
  end.

(** [Simulator._get_next_position]. *)
Definition _get_next_position (car : Car.t) : pos :=
  let '(x, y) := Car.position car in
  if String.eqb (Car.direction car) "N" then (x, y - 1)
  else if String.eqb (Car.direction car) "S" then (x, y + 1)
  else if String.eqb (Car.direction car) "E" then (x + 1, y)
  else if String.eqb (Car.direction car) "W" then (x - 1, y)
  else (x, y).

(** [Simulator._in_bounds]. *)
Definition _in_bounds (self : t) (p : pos) : bool :=
  let '(x, y) := p in
  (0 <=? x) && (x <? grid_size self) && ((0 <=? y) && (y <? grid_size self)).

(** [intersection and not intersection.is_green(car.direction)]. *)
Definition red_light (self : t) (next_pos : pos) (car : Car.t) : bool :=
  match intersections self !! next_pos with
  | Some intersection => negb (Intersection.is_green intersection (Car.direction car))
  | None => false
  end.

(** [next_pos in new_positions or any(other.position == next_pos ...)]. *)
Definition collides (self : t) (new_positions : gset pos) (next_pos : pos) : bool :=
  bool_decide (next_pos ∈ new_positions)
  || existsb (fun other => bool_decide (Car.position other = next_pos)) (cars self).

(** The body of [for car in self.cars] for the car at index [i]; the pass
    carries the engine and the [new_positions] set. *)
Definition visit (i : nat) (st : t * gset pos) : t * gset pos :=
  let '(self, new_positions) := st in
  match cars self !! i with
  | None => st
  | Some car =>
    let next_pos := _get_next_position car in
    if negb (_in_bounds self next_pos) then st
    else if red_light self next_pos car then st
    else if collides self new_positions next_pos then st
    else
      let car' := Car.move car in
      (with_cars self (<[i := car']> (cars self)),
       new_positions ∪ {[Car.position car']})
  end.

(** The engine after the lights were advanced, before any car is visited. *)
Definition advance_lights (self : t) : t :=
  mk (grid_size self) (time_step self + 1) (cars self)
     (Intersection.update_light <$> intersections self) (road_network self).

(** The pass just before the car at index [i] is visited. *)
Definition pass_before (self : t) (i : nat) : t * gset pos :=
  foldl (fun st j => visit j st) (advance_lights self, ∅) (seq 0 i).

(** [Simulator.update]. *)
Definition update (self : t) : t :=
  (pass_before self (length (cars self))).1.

(** [Simulator.find_path]. *)
Definition find_path (self : t) (start goal : pos) : list pos := [].

(** [steps] calls of [update], as [run] makes them. *)
Definition run (steps : nat) (self : t) : t := Nat.iter steps update self.






End Simulator.

(** ** Notions used by the statements *)

(** The unit delta the specification assigns to each heading. *)
Definition unit_delta (d : string) : option pos :=
  if String.eqb d "N" then Some (0, -1)
  else if String.eqb d "S" then Some (0, 1)
  else if String.eqb d "E" then Some (1, 0)
  else if String.eqb d "W" then Some (-1, 0)
  else None.

(** The collision rule in the specification's words, for the car at index
    [i] of a pass: the candidate is already claimed, or it is the position
    of a car that comes later in the list. *)
Definition claimed_or_ahead (st : Simulator.t * gset pos) (i : nat) (next_pos : pos) : bool :=
  bool_decide (next_pos ∈ st.2)
  || existsb (λ other, bool_decide (Car.position other = next_pos))
             (drop (S i) (Simulator.cars st.1)).

(** The 10-by-10 engine with cycle length 5 and a single car. *)
Definition engine_with (cs : list Car.t) : Simulator.t :=
  Simulator.mk 10 0 cs (Simulator.place_intersections 10 5) (RoadNetwork.init 10).

Definition scenario_engine : Simulator.t :=
  engine_with [Car.init 0 (1, 0) "E" None None].

(** All cells of the grid, and those a new car may be put on. *)
Definition grid_cells (gs : Z) : list pos :=
  x ← seqZ 0 gs; y ← seqZ 0 gs; [(x, y)].

Definition free_cells (gs : Z) (ints : gmap pos Intersection.t) : list pos :=
  filter (λ p, ints !! p = None) (grid_cells gs).

(** Every placed car sits on a free cell of its own. *)
Definition well_placed (gs : Z) (ints : gmap pos Intersection.t) (cs : list Car.t) : Prop :=
  NoDup (Car.position <$> cs)
  ∧ ∀ p, p ∈ Car.position <$> cs → p ∈ free_cells gs ints.




(** Raw draws that make the placement loop pick the given cells, each with
    direction ['N']. *)
Definition draws_for (ps : list pos) : list nat :=
  ps ≫= λ p, [Z.to_nat p.1; Z.to_nat p.2; 0%nat].

(** * The scenario engine is what the constructor builds *)

Example scenario_start :
  Simulator.init 10 1 5 [1; 0; 2]%nat = Returned scenario_engine.
Proof. vm_compute. reflexivity. Qed.

(** * The traffic light *)

Section Lights.
Import Intersection.

Lemma after_calls_S n i : after_calls (S n) i = update_light (after_calls n i).
Proof. reflexivity. Qed.

Lemma update_light_fields i :
  position (update_light i) = position i ∧
  cycle_length (update_light i) = cycle_length i.
Proof. unfold update_light. by destruct (_ >=? _). Qed.

Lemma after_calls_cycle_length n i :
  cycle_length (after_calls n i) = cycle_length i.
Proof.
  induction n as [|n IH]; [done|].
  rewrite after_calls_S. by rewrite (proj2 (update_light_fields _)).
Qed.

Lemma update_light_flip i :
  timer i + 1 >= cycle_length i → one_green (light_state i) →
  light_state (update_light i) = swap (light_state i) ∧ timer (update_light i) = 0.
Proof.
  intros Hge Hone. unfold update_light.
  destruct (Z.geb_spec (timer i + 1) (cycle_length i)) as [_|Hlt]; [|lia].
  destruct (light_state i) as [ns ew]; unfold one_green in Hone; simpl in *.
  by destruct Hone as [[-> ->]|[-> ->]].
Qed.

Lemma update_light_keep i :
  timer i + 1 < cycle_length i →
  light_state (update_light i) = light_state i ∧ timer (update_light i) = timer i + 1.
Proof.
  intros Hlt. unfold update_light.
  by destruct (Z.geb_spec (timer i + 1) (cycle_length i)) as [Hge|_]; [lia|].
Qed.

Lemma update_light_one_green i :
  one_green (light_state i) → one_green (light_state (update_light i)).
Proof.
  intros Hone. unfold update_light.
  destruct (_ >=? _); [|done]. simpl.
  destruct (String.eqb _ _); [right|left]; done.
Qed.

Lemma swap_changes ls : one_green ls → swap ls ≠ ls.
Proof.
  destruct ls as [ns ew]. unfold one_green, swap; simpl.
  by intros [[-> ->]|[-> ->]].
Qed.

Lemma mod_succ (k c : Z) :
  0 <= k → 1 <= c →
  (k + 1) mod c = if k mod c + 1 >=? c then 0 else k mod c + 1.
Proof.
  intros Hk Hc.
  pose proof (Z.mod_pos_bound k c ltac:(lia)) as Hb.
  pose proof (Z.div_mod k c ltac:(lia)) as Hdm.
  destruct (Z.geb_spec (k mod c + 1) c) as [Hge|Hlt].
  - symmetry. apply (Z.mod_unique_pos _ _ (k / c + 1)); lia.
  - symmetry. apply (Z.mod_unique_pos _ _ (k / c)); lia.
Qed.

(** From a fresh intersection the timer counts the calls modulo the cycle. *)
Lemma timer_after_calls p initial cycle n :
  1 <= cycle →
  timer (after_calls n (init p initial cycle)) = Z.of_nat n mod cycle.
Proof.
  intros Hc. induction n as [|n IH].
  - simpl. by rewrite Z.mod_0_l by lia.
  - rewrite after_calls_S.
    replace (Z.of_nat (S n)) with (Z.of_nat n + 1) by lia.
    rewrite mod_succ by lia. rewrite <- IH.
    set (i := after_calls n _) in *.
    assert (cycle_length i = cycle) as Hcl
      by (unfold i; by rewrite after_calls_cycle_length).
    unfold update_light. rewrite Hcl.
    by destruct (_ >=? _).
Qed.

(** C5: an intersection built with the default initial state has, after
    any number of [update_light] calls, exactly one of its two axes green
    and the other one red (for every cycle length). *)
Theorem default_start_one_axis_green (p : pos) (cycle : Z) (n : nat) :
  one_green (light_state (after_calls n (init p None cycle))).
Proof.
  induction n as [|n IH].
  - left. done.
  - rewrite after_calls_S. by apply update_light_one_green.
Qed.

(** C4: with [cycle_length >= 1], call number [k + 1] on an intersection
    built by the constructor swaps the NS and EW colours and resets the
    timer to 0 exactly when [k + 1] is a multiple of the cycle length, and
    leaves the light state untouched otherwise; without an initial state the
    constructor starts NS green, EW red. *)
Theorem light_flips_every_cycle (p : pos) (initial : option lights) (cycle : Z) (k : nat) :
  1 <= cycle →
  from_option one_green True initial →
  light_state (init p None cycle) = mk_lights "green" "red" ∧
  timer (init p initial cycle) = 0 ∧
  if Z.of_nat (S k) mod cycle =? 0
  then light_state (after_calls (S k) (init p initial cycle))
         = swap (light_state (after_calls k (init p initial cycle)))
       ∧ light_state (after_calls (S k) (init p initial cycle))
         ≠ light_state (after_calls k (init p initial cycle))
       ∧ timer (after_calls (S k) (init p initial cycle)) = 0
  else light_state (after_calls (S k) (init p initial cycle))
         = light_state (after_calls k (init p initial cycle)).
Proof.
  intros Hc Hinit. split; [done|]. split; [done|].
  assert (∀ n, one_green (light_state (after_calls n (init p initial cycle)))) as Hone.
  { induction n as [|n IH]; [|rewrite after_calls_S; by apply update_light_one_green].
    destruct initial as [st|]; [exact Hinit|by left]. }
  pose proof (timer_after_calls p initial cycle k Hc) as Ht.
  pose proof (after_calls_cycle_length k (init p initial cycle)) as Hcl.
  simpl in Hcl.
  replace (Z.of_nat (S k)) with (Z.of_nat k + 1) by lia.
  rewrite mod_succ by lia. rewrite <- Ht.
  rewrite after_calls_S.
  set (i := after_calls k _) in *.
  destruct (Z.geb_spec (timer i + 1) cycle) as [Hge|Hlt]; simpl.
  - destruct (update_light_flip i) as [Hls Htm]; [lia|apply Hone|].
    rewrite Hls. split; [done|]. split; [|done]. apply swap_changes, Hone.
  - pose proof (Z.mod_pos_bound (Z.of_nat k) cycle ltac:(lia)).
    destruct (Z.eqb_spec (timer i + 1) 0) as [Heq|_]; [lia|].
    by destruct (update_light_keep i) as [Hls _]; [lia|].
Qed.

Lemma light_flips_every_cycle_witness :
  light_state (init (3, 0) None 5) = mk_lights "green" "red" ∧
  timer (init (3, 0) None 5) = 0 ∧
  light_state (after_calls 5 (init (3, 0) None 5))
    = swap (light_state (after_calls 4 (init (3, 0) None 5)))
  ∧ light_state (after_calls 5 (init (3, 0) None 5))
    ≠ light_state (after_calls 4 (init (3, 0) None 5))
  ∧ timer (after_calls 5 (init (3, 0) None 5)) = 0.
Proof.
  apply (light_flips_every_cycle (3, 0) None 5 4); [lia | exact I].
Defined.

End Lights.

(** * One tick of the engine *)

Section Pass.
Import Simulator.

Lemma move_position (c : Car.t) : Car.position (Car.move c) = _get_next_position c.
Proof.
  unfold Car.move, _get_next_position.
  destruct (Car.position c) as [x y] eqn:Hp.
  repeat (destruct (String.eqb _ _); [done|]). done.
Qed.

(** What [visit] does to the car it finds at index [i]. *)
Lemma visit_cases (i : nat) (self : t) (np : gset pos) (car : Car.t) :
  cars self !! i = Some car →
  (visit i (self, np) = (self, np) ∧
   (_in_bounds self (_get_next_position car) = false
    ∨ red_light self (_get_next_position car) car = true
    ∨ collides self np (_get_next_position car) = true))
  ∨ (visit i (self, np)
       = (with_cars self (<[i := Car.move car]> (cars self)),
          np ∪ {[Car.position (Car.move car)]})
     ∧ _in_bounds self (_get_next_position car) = true
     ∧ red_light self (_get_next_position car) car = false
     ∧ collides self np (_get_next_position car) = false).
Proof.
  intros Hi. unfold visit. rewrite Hi.
  destruct (_in_bounds _ _); simpl; [|left; auto].
  destruct (red_light _ _ _); [left; auto|].
  destruct (collides _ _ _); [left; auto|].
  right. auto.
Qed.

Lemma visit_absent (i : nat) (self : t) (np : gset pos) :
  cars self !! i = None → visit i (self, np) = (self, np).
Proof. intros Hi. unfold visit. by rewrite Hi. Qed.

Lemma visit_frame (i : nat) (st : t * gset pos) :
  grid_size (visit i st).1 = grid_size st.1 ∧
  time_step (visit i st).1 = time_step st.1 ∧
  intersections (visit i st).1 = intersections st.1 ∧
  road_network (visit i st).1 = road_network st.1 ∧
  length (cars (visit i st).1) = length (cars st.1).
Proof.
  destruct st as [self np].
  destruct (cars self !! i) as [car|] eqn:Hi.
  - destruct (visit_cases i self np car Hi) as [[-> _]|[-> _]]; [done|].
    simpl. by rewrite length_insert.
  - by rewrite visit_absent.
Qed.

Lemma visit_other (i j : nat) (st : t * gset pos) :
  i ≠ j → cars (visit i st).1 !! j = cars st.1 !! j.
Proof.
  intros Hne. destruct st as [self np].
  destruct (cars self !! i) as [car|] eqn:Hi.
  - destruct (visit_cases i self np car Hi) as [[-> _]|[-> _]]; [done|].
    simpl. by rewrite list_lookup_insert_ne.
  - by rewrite visit_absent.
Qed.

Lemma pass_before_S (self : t) (i : nat) :
  pass_before self (S i) = visit i (pass_before self i).
Proof. unfold pass_before. by rewrite seq_S, foldl_app. Qed.

Lemma pass_frame (self : t) (i : nat) :
  grid_size (pass_before self i).1 = grid_size self ∧
  time_step (pass_before self i).1 = time_step self + 1 ∧
  intersections (pass_before self i).1
    = Intersection.update_light <$> intersections self ∧
  road_network (pass_before self i).1 = road_network self ∧
  length (cars (pass_before self i).1) = length (cars self).
Proof.
  induction i as [|i IH]; [done|].
  rewrite pass_before_S.
  destruct (visit_frame i (pass_before self i)) as (-> & -> & -> & -> & ->).
  exact IH.
Qed.

(** Cars that were not visited yet are as they were before the tick. *)
Lemma pass_untouched (self : t) (i j : nat) :
  (i ≤ j)%nat → cars (pass_before self i).1 !! j = cars self !! j.
Proof.
  induction i as [|i IH]; intros Hle; [done|].
  rewrite pass_before_S, visit_other by lia. apply IH. lia.
Qed.

(** A car is final once it was visited. *)
Lemma pass_settled (self : t) (i k j : nat) :
  (j < i)%nat → (i ≤ k)%nat →
  cars (pass_before self k).1 !! j = cars (pass_before self i).1 !! j.
Proof.
  intros Hj Hik. induction k as [|k IH]; [lia|].
  destruct (decide (i = S k)) as [->|Hne]; [done|].
  rewrite pass_before_S, visit_other by lia. apply IH. lia.
Qed.

(** The car at index [i] after the tick is the one its own visit left. *)
Lemma update_lookup (self : t) (i : nat) (car : Car.t) :
  cars self !! i = Some car →
  cars (update self) !! i = cars (visit i (pass_before self i)).1 !! i.
Proof.
  intros Hi. apply lookup_lt_Some in Hi.
  unfold update. rewrite <- pass_before_S.
  apply pass_settled; lia.
Qed.

(** Every claimed position is held by a car visited earlier in the pass. *)
Lemma pass_claimed (self : t) (i : nat) (p : pos) :
  p ∈ (pass_before self i).2 →
  ∃ j other, (j < i)%nat ∧ cars (pass_before self i).1 !! j = Some other
             ∧ Car.position other = p.
Proof.
  revert p. induction i as [|i IH]; intros p Hp.
  - unfold pass_before in Hp. simpl in Hp. set_solver.
  - rewrite pass_before_S in Hp |- *.
    destruct (pass_before self i) as [s np] eqn:Hst. simpl in IH.
    destruct (cars s !! i) as [car|] eqn:Hi.
    + destruct (visit_cases i s np car Hi) as [[Hv _]|[Hv _]];
        rewrite Hv in Hp |- *; simpl in *.
      * destruct (IH p Hp) as (j & other & Hj & Hl & Hpos).
        exists j, other. split; [lia|done].
      * apply elem_of_union in Hp as [Hp|Hp].
        -- destruct (IH p Hp) as (j & other & Hj & Hl & Hpos).
           exists j, other. split; [lia|].
           by rewrite list_lookup_insert_ne by lia.
        -- apply elem_of_singleton in Hp as ->.
           exists i, (Car.move car). split; [lia|]. split; [|done].
           apply list_lookup_insert_eq. by eapply lookup_lt_Some.
    + rewrite visit_absent in Hp |- * by done. simpl in *.
      destruct (IH p Hp) as (j & other & Hj & Hl & Hpos).
      exists j, other. split; [lia|done].
Qed.

Lemma existsb_position (cs : list Car.t) (p : pos) :
  existsb (λ other, bool_decide (Car.position other = p)) cs = true
  ↔ ∃ j other, cs !! j = Some other ∧ Car.position other = p.
Proof.
  rewrite existsb_exists. split.
  - intros (other & Hin & Hp). apply bool_decide_eq_true in Hp.
    apply list_elem_of_In, list_elem_of_lookup in Hin as [j Hj]. eauto.
  - intros (j & other & Hj & Hp). exists other. split.
    + apply list_elem_of_In, list_elem_of_lookup. eauto.
    + by apply bool_decide_eq_true.
Qed.

Lemma NoDup_insert_fresh {A : Type} (l : list A) (i : nat) (x : A) :
  NoDup l → x ∉ l → NoDup (<[i := x]> l).
Proof.
  rewrite !NoDup_alt. intros Hnd Hx a b y Ha Hb.
  rewrite list_lookup_insert in Ha. rewrite list_lookup_insert in Hb.
  repeat case_decide; simplify_eq.
  - lia.
  - exfalso. apply Hx, list_elem_of_lookup. eauto.
  - exfalso. apply Hx, list_elem_of_lookup. eauto.
  - eauto.
Qed.

Lemma visit_NoDup (i : nat) (st : t * gset pos) :
  NoDup (Car.position <$> cars st.1) →
  NoDup (Car.position <$> cars (visit i st).1).
Proof.
  intros Hnd. destruct st as [self np].
  destruct (cars self !! i) as [car|] eqn:Hi; [|by rewrite visit_absent].
  destruct (visit_cases i self np car Hi) as [[-> _]|(-> & _ & _ & Hfree)]; [done|].
  simpl in *. rewrite list_fmap_insert. apply NoDup_insert_fresh; [done|].
  rewrite move_position. intros Hin.
  apply list_elem_of_fmap in Hin as (other & Hp & Hin).
  apply list_elem_of_lookup in Hin as [j Hj].
  apply orb_false_iff in Hfree as [_ Hfree].
  assert (existsb (λ o, bool_decide (Car.position o = _get_next_position car))
            (cars self) = true) as Hex; [|congruence].
  apply existsb_position. eauto.
Qed.

(** C1: when the cars occupy pairwise-distinct positions, they again occupy
    pairwise-distinct positions after one [update]. *)
Theorem update_keeps_positions_distinct (self : t) :
  NoDup (Car.position <$> cars self) →
  NoDup (Car.position <$> cars (update self)).
Proof.
  intros Hnd. unfold update.
  induction (length (cars self)) as [|n IH]; [done|].
  rewrite pass_before_S. by apply visit_NoDup.
Qed.

Lemma update_keeps_positions_distinct_witness :
  NoDup (Car.position <$> cars (update
    (engine_with [Car.init 0 (2, 0) "E" None None; Car.init 1 (4, 0) "W" None None]))).
Proof.
  apply update_keeps_positions_distinct.
  apply (bool_decide_unpack _). vm_compute. reflexivity.
Defined.

(** C8: a car whose candidate position is outside [[0, grid_size)] on either
    axis is the same car at the same position after [update]; the list of
    cars keeps its length, so the car is neither removed nor wrapped. *)
Theorem out_of_bounds_car_stays (self : t) (i : nat) (car : Car.t) :
  cars self !! i = Some car →
  _in_bounds self (_get_next_position car) = false →
  cars (update self) !! i = Some car
  ∧ length (cars (update self)) = length (cars self).
Proof.
  intros Hi Hout. split; [|apply pass_frame].
  rewrite (update_lookup self i car Hi).
  pose proof (pass_untouched self i i ltac:(lia)) as Hsame. rewrite Hi in Hsame.
  destruct (pass_before self i) as [s np] eqn:Hst. simpl in Hsame.
  destruct (visit_cases i s np car Hsame) as [[-> _]|(_ & Hin & _)]; [done|].
  unfold _in_bounds in *.
  pose proof (pass_frame self i) as (Hgs & _). rewrite Hst in Hgs. simpl in Hgs.
  rewrite Hgs in Hin. congruence.
Qed.

Lemma out_of_bounds_car_stays_witness :
  cars (update (engine_with [Car.init 0 (9, 4) "E" None None])) !! 0%nat
    = Some (Car.init 0 (9, 4) "E" None None)
  ∧ length (cars (update (engine_with [Car.init 0 (9, 4) "E" None None])))
    = length (cars (engine_with [Car.init 0 (9, 4) "E" None None])).
Proof.
  apply (out_of_bounds_car_stays
           (engine_with [Car.init 0 (9, 4) "E" None None]) 0
           (Car.init 0 (9, 4) "E" None None)); reflexivity.
Defined.

Lemma unit_delta_move (car : Car.t) (dx dy : Z) :
  unit_delta (Car.direction car) = Some (dx, dy) →
  Car.move car
  = Car.set_position car ((Car.position car).1 + dx, (Car.position car).2 + dy).
Proof.
  unfold unit_delta, Car.move. destruct (Car.position car) as [x y]. simpl.
  repeat (destruct (String.eqb _ _);
          [intros [= <- <-]; do 2 f_equal; lia|]).
  done.
Qed.

Lemma is_green_cardinal (junction : Intersection.t) (d : string) :
  Intersection.is_green junction d = true → is_Some (unit_delta d).
Proof.
  unfold Intersection.is_green, unit_delta.
  destruct (String.eqb d "N"); [eauto|].
  destruct (String.eqb d "S"); [eauto|].
  destruct (String.eqb d "E"); [eauto|].
  destruct (String.eqb d "W"); [eauto|]. done.
Qed.

(** C3: let the candidate position of a car be a controlled cell.  If the
    light that [update] consults (the junction's light after this tick's
    [update_light]) is not green for the car's direction, the car is
    unchanged after [update].  If it is green, the candidate is in bounds and
    the collision check of the car's visit does not fire, the car ends one
    cell further along the unit delta of its direction. *)
Theorem light_gates_the_move (self : t) (i : nat) (car : Car.t)
    (junction : Intersection.t) :
  cars self !! i = Some car →
  intersections self !! _get_next_position car = Some junction →
  (Intersection.is_green (Intersection.update_light junction) (Car.direction car)
     = false →
   cars (update self) !! i = Some car)
  ∧ (Intersection.is_green (Intersection.update_light junction) (Car.direction car)
       = true →
     _in_bounds self (_get_next_position car) = true →
     collides (pass_before self i).1 (pass_before self i).2
              (_get_next_position car) = false →
     ∃ dx dy, unit_delta (Car.direction car) = Some (dx, dy)
       ∧ cars (update self) !! i
         = Some (Car.set_position car
                   ((Car.position car).1 + dx, (Car.position car).2 + dy))).
Proof.
  intros Hi Hj.
  rewrite (update_lookup self i car Hi).
  pose proof (pass_untouched self i i ltac:(lia)) as Hsame. rewrite Hi in Hsame.
  pose proof (pass_frame self i) as (Hgs & _ & Hints & _).
  destruct (pass_before self i) as [s np] eqn:Hst.
  simpl in Hsame, Hgs, Hints.
  change (s, np).1 with s. change (s, np).2 with np.
  assert (red_light s (_get_next_position car) car
          = negb (Intersection.is_green (Intersection.update_light junction)
                    (Car.direction car))) as Hred.
  { unfold red_light. by rewrite Hints, lookup_fmap, Hj. }
  destruct (visit_cases i s np car Hsame)
    as [[-> Hblocked]|(-> & Hin & Hgo & Hfree)]; simpl.
  - split; [done|]. intros Hgreen Hin Hfree.
    destruct Hblocked as [Hout|[Hstop|Hhit]].
    + unfold _in_bounds in *. rewrite Hgs in Hout. congruence.
    + rewrite Hred, Hgreen in Hstop. done.
    + congruence.
  - split.
    + intros Hnot. rewrite Hred, Hnot in Hgo. done.
    + intros Hgreen _ _.
      destruct (is_green_cardinal _ _ Hgreen) as [[dx dy] Hd].
      exists dx, dy. split; [done|].
      rewrite list_lookup_insert_eq by (by eapply lookup_lt_Some).
      by rewrite (unit_delta_move car dx dy Hd).
Qed.

Lemma light_gates_the_move_witness :
  cars (update (engine_with [Car.init 0 (2, 0) "E" None None])) !! 0%nat
    = Some (Car.init 0 (2, 0) "E" None None)
  ∧ ∃ dx dy, unit_delta "S" = Some (dx, dy)
      ∧ cars (update (engine_with [Car.init 0 (3, 2) "S" None None])) !! 0%nat
        = Some (Car.init 0 (3 + dx, 2 + dy) "S" None None).
Proof.
  split.
  - apply (light_gates_the_move
             (engine_with [Car.init 0 (2, 0) "E" None None]) 0
             (Car.init 0 (2, 0) "E" None None)
             (Intersection.init (3, 0) None 5));
      vm_compute; reflexivity.
  - apply (light_gates_the_move
             (engine_with [Car.init 0 (3, 2) "S" None None]) 0
             (Car.init 0 (3, 2) "S" None None)
             (Intersection.init (3, 3) None 5));
      vm_compute; reflexivity.
Defined.

Lemma non_cardinal_next (car : Car.t) :
  Car.direction car ≠ "N" → Car.direction car ≠ "S" →
  Car.direction car ≠ "E" → Car.direction car ≠ "W" →
  _get_next_position car = Car.position car.
Proof.
  intros HN HS HE HW. unfold _get_next_position.
  destruct (Car.position car) as [x y].
  apply String.eqb_neq in HN, HS, HE, HW. by rewrite HN, HS, HE, HW.
Qed.

Lemma collides_own_position (s : t) (np : gset pos) (i : nat) (car : Car.t) :
  cars s !! i = Some car → collides s np (Car.position car) = true.
Proof.
  intros Hi. unfold collides. apply orb_true_iff. right.
  apply existsb_position. eauto.
Qed.

Lemma run_S (n : nat) (self : t) : run (S n) self = update (run n self).
Proof. reflexivity. Qed.

(** C10: a car whose direction is none of ['N'], ['S'], ['E'], ['W'] has its
    own position as candidate; the collision check, which looks at every car
    of the list, fires on that candidate in any pass where the car is in the
    list; and after any number of [update] calls the car is unchanged. *)
Theorem non_cardinal_car_never_moves (self : t) (i : nat) (car : Car.t) (n : nat) :
  cars self !! i = Some car →
  Car.direction car ≠ "N" → Car.direction car ≠ "S" →
  Car.direction car ≠ "E" → Car.direction car ≠ "W" →
  _get_next_position car = Car.position car
  ∧ (∀ (s : t) (np : gset pos),
       cars s !! i = Some car → collides s np (_get_next_position car) = true)
  ∧ cars (run n self) !! i = Some car.
Proof.
  intros Hi HN HS HE HW.
  pose proof (non_cardinal_next car HN HS HE HW) as Hnext.
  split; [done|]. split.
  { intros s np Hs. rewrite Hnext. by eapply collides_own_position. }
  induction n as [|n IH]; [done|].
  rewrite run_S. set (s := run n self) in *.
  rewrite (update_lookup s i car IH).
  pose proof (pass_untouched s i i ltac:(lia)) as Hsame. rewrite IH in Hsame.
  destruct (pass_before s i) as [s' np] eqn:Hst. simpl in Hsame.
  destruct (visit_cases i s' np car Hsame) as [[-> _]|(_ & _ & _ & Hfree)]; [done|].
  rewrite Hnext, (collides_own_position s' np i car Hsame) in Hfree. done.
Qed.

Lemma non_cardinal_car_never_moves_witness :
  _get_next_position (Car.init 0 (1, 0) "NE" None None) = (1, 0)
  ∧ (∀ (s : t) (np : gset pos),
       cars s !! 0%nat = Some (Car.init 0 (1, 0) "NE" None None) →
       collides s np (_get_next_position (Car.init 0 (1, 0) "NE" None None)) = true)
  ∧ cars (run 7 (engine_with [Car.init 0 (1, 0) "NE" None None])) !! 0%nat
    = Some (Car.init 0 (1, 0) "NE" None None).
Proof.
  apply (non_cardinal_car_never_moves
           (engine_with [Car.init 0 (1, 0) "NE" None None]) 0
           (Car.init 0 (1, 0) "NE" None None) 7); [reflexivity|done..].
Defined.

(** The check of the source against the positions the pass has reached: the
    cars visited earlier are where the tick leaves them, the others where
    the tick found them. *)
Lemma collides_spec (self : t) (i : nat) (p : pos) :
  (i ≤ length (cars self))%nat →
  collides (pass_before self i).1 (pass_before self i).2 p = true
  ↔ (∃ j other, (j < i)%nat ∧ cars (update self) !! j = Some other
                ∧ Car.position other = p)
    ∨ (∃ j other, (i ≤ j)%nat ∧ cars self !! j = Some other
                  ∧ Car.position other = p).
Proof.
  intros Hlen. unfold collides. rewrite orb_true_iff, bool_decide_eq_true.
  rewrite existsb_position.
  assert (∀ j, (j < i)%nat →
            cars (update self) !! j = cars (pass_before self i).1 !! j) as Hdone.
  { intros j Hj. unfold update. apply pass_settled; lia. }
  split.
  - intros [Hin|(j & other & Hj & Hp)].
    + destruct (pass_claimed self i p Hin) as (j & other & Hlt & Hj & Hp).
      left. exists j, other. by rewrite Hdone.
    + destruct (decide (j < i)%nat) as [Hlt|Hge].
      * left. exists j, other. by rewrite Hdone.
      * right. exists j, other. split; [lia|].
        by rewrite <- (pass_untouched self i j) by lia.
  - intros [(j & other & Hlt & Hj & Hp)|(j & other & Hle & Hj & Hp)]; right.
    + exists j, other. by rewrite <- Hdone.
    + exists j, other. by rewrite pass_untouched.
Qed.

End Pass.

(** * Construction *)

Section Construction.
Import Simulator.

Variable gs : Z.

Lemma randint_range (raw : nat) : 1 ≤ gs → 0 ≤ randint 0 (gs - 1) raw < gs.
Proof.
  intros Hgs. unfold randint.
  replace (gs - 1 - 0 + 1) with gs by lia.
  pose proof (Z.mod_pos_bound (Z.of_nat raw) gs ltac:(lia)). lia.
Qed.

Lemma elem_of_grid_cells (x y : Z) :
  (x, y) ∈ grid_cells gs ↔ (0 ≤ x < gs ∧ 0 ≤ y < gs).
Proof.
  unfold grid_cells. rewrite list_elem_of_bind. split.
  - intros (x' & Hin & Hx). apply list_elem_of_bind in Hin as (y' & Hin & Hy).
    apply list_elem_of_singleton in Hin. injection Hin as -> ->.
    apply elem_of_seqZ in Hx. apply elem_of_seqZ in Hy. lia.
  - intros [Hx Hy]. exists x. split; [|apply elem_of_seqZ; lia].
    apply list_elem_of_bind. exists y. split; [|apply elem_of_seqZ; lia].
    by apply list_elem_of_singleton.
Qed.

Lemma is_free_spec (ints : gmap pos Intersection.t) (cs : list Car.t) (p : pos) :
  is_free ints cs p = true ↔ ints !! p = None ∧ p ∉ Car.position <$> cs.
Proof.
  unfold is_free. destruct (ints !! p) as [j|]; [split; [done|by intros [? _]]|].
  rewrite forallb_forall. split.
  - intros Hall. split; [done|]. intros Hin.
    apply list_elem_of_fmap in Hin as (c & -> & Hin).
    apply list_elem_of_In, Hall in Hin.
    apply negb_true_iff, bool_decide_eq_false in Hin. done.
  - intros [_ Hnot] c Hin. apply negb_true_iff, bool_decide_eq_false.
    intros Hp. apply Hnot, list_elem_of_fmap. exists c.
    split; [done|]. by apply list_elem_of_In.
Qed.

(** Induction over the runs of the placement loop that return. *)
Lemma place_cars_returned_ind (ints : gmap pos Intersection.t)
    (Q : nat → Z → list Car.t → list Car.t → Prop) :
  (∀ i cs, Q O i cs cs) →
  (∀ k i (cs : list Car.t) p (d : string) cs',
     1 ≤ gs → p ∈ grid_cells gs → is_free ints cs p = true →
     Q k (i + 1) (cs ++ [Car.init i p d None None])%list cs' →
     Q (S k) i cs cs') →
  ∀ draws remaining i cs cs',
    place_cars gs ints remaining i cs draws = Returned cs' →
    Q remaining i cs cs'.
Proof.
  intros Hbase Hstep draws.
  induction draws as [draws IH] using (induction_ltof1 _ length).
  unfold ltof in IH. intros remaining i cs cs' Hret.
  destruct remaining as [|k].
  { destruct draws; simpl in Hret; injection Hret as <-; apply Hbase. }
  assert (place_cars gs ints (S k) i cs draws
          = if gs - 1 <? 0 then Raised ValueError
            else match draws with
                 | rx :: ry :: rest =>
                   let p := (randint 0 (gs - 1) rx, randint 0 (gs - 1) ry) in
                   if is_free ints cs p then
                     match rest with
                     | rd :: rest' =>
                       place_cars gs ints k (i + 1)
                         (cs ++ [Car.init i p (choice ["N"; "S"; "E"; "W"] rd)
                                   None None])%list rest'
                     | [] => Looping
                     end
                   else place_cars gs ints (S k) i cs rest
                 | _ => Looping
                 end) as Heq by (by destruct draws).
  rewrite Heq in Hret. clear Heq.
  destruct (Z.ltb_spec (gs - 1) 0) as [|Hgs]; [done|].
  destruct draws as [|rx [|ry rest]]; [done..|].
  simpl in Hret.
  destruct (is_free ints cs _) eqn:Hfree.
  - destruct rest as [|rd rest']; [done|].
    eapply Hstep; [lia| |exact Hfree|].
    + apply elem_of_grid_cells. split; apply randint_range; lia.
    + eapply IH; [|exact Hret]. simpl. lia.
  - eapply IH; [|exact Hret]. simpl. lia.
Qed.

(** The cars of a returning run: the old ones, then [remaining] new ones
    with the ids [i], [i + 1], ... in list order. *)
Lemma place_cars_ids (ints : gmap pos Intersection.t) (draws : list nat)
    (remaining : nat) (i : Z) (cs cs' : list Car.t) :
  place_cars gs ints remaining i cs draws = Returned cs' →
  Car.id <$> cs'
  = ((Car.id <$> cs) ++ ((λ k, i + Z.of_nat k) <$> seq 0 remaining))%list.
Proof.
  revert draws remaining i cs cs'.
  apply (place_cars_returned_ind ints
           (λ remaining i cs cs',
              Car.id <$> cs'
              = ((Car.id <$> cs) ++ ((λ k, i + Z.of_nat k) <$> seq 0 remaining))%list)).
  - intros i cs. simpl. by rewrite app_nil_r.
  - intros k i cs p d cs' _ _ _ ->.
    rewrite fmap_app, <- app_assoc. f_equal. simpl. f_equal; [f_equal; lia|].
    rewrite <- seq_shift, <- list_fmap_compose. apply list_fmap_ext.
    intros j x _. simpl. lia.
Qed.

Lemma place_cars_well_placed (ints : gmap pos Intersection.t) (draws : list nat)
    (remaining : nat) (i : Z) (cs cs' : list Car.t) :
  place_cars gs ints remaining i cs draws = Returned cs' →
  well_placed gs ints cs →
  well_placed gs ints cs' ∧ length cs' = (length cs + remaining)%nat.
Proof.
  revert draws remaining i cs cs'.
  apply (place_cars_returned_ind ints
           (λ remaining i cs cs',
              well_placed gs ints cs →
              well_placed gs ints cs' ∧ length cs' = (length cs + remaining)%nat)).
  - intros i cs Hwp. split; [done|lia].
  - intros k i cs p d cs' _ Hcell Hfree IH [Hnd Hsub].
    apply is_free_spec in Hfree as [Hnone Hfresh].
    destruct IH as [Hwp Hlen].
    + split.
      * rewrite fmap_app. apply NoDup_app. split; [done|]. split.
        -- intros q Hq Hq'. apply list_elem_of_singleton in Hq'. by subst.
        -- apply NoDup_singleton.
      * intros q Hq. rewrite fmap_app in Hq.
        apply elem_of_app in Hq as [Hq|Hq]; [by apply Hsub|].
        apply list_elem_of_singleton in Hq. subst q.
        apply list_elem_of_filter. done.
    + split; [done|]. rewrite length_app in Hlen. simpl in Hlen. lia.
Qed.

(** The loop raises only from [randint] on an empty range. *)
Lemma place_cars_raised (ints : gmap pos Intersection.t) (draws : list nat)
    (remaining : nat) (i : Z) (cs : list Car.t) (e : exn) :
  place_cars gs ints remaining i cs draws = Raised e → gs ≤ 0.
Proof.
  revert remaining i cs.
  induction draws as [draws IH] using (induction_ltof1 _ length).
  unfold ltof in IH. intros remaining i cs Hr.
  destruct remaining as [|k]; [by destruct draws|].
  destruct (Z.ltb_spec (gs - 1) 0) as [Hlt|Hge]; [lia|].
  destruct draws as [|rx [|ry rest]]; simpl in Hr;
    destruct (Z.ltb_spec (gs - 1) 0); try lia; try done.
  destruct (is_free ints cs _).
  - destruct rest as [|rd rest']; [done|].
    eapply IH; [|exact Hr]. simpl. lia.
  - eapply IH; [|exact Hr]. simpl. lia.
Qed.

Lemma place_cars_empty_range (ints : gmap pos Intersection.t) (draws : list nat)
    (k : nat) (i : Z) (cs : list Car.t) :
  gs ≤ 0 → place_cars gs ints (S k) i cs draws = Raised ValueError.
Proof.
  intros Hgs. destruct draws; simpl;
    by destruct (Z.ltb_spec (gs - 1) 0); [|lia].
Qed.

(** Only the keys of the intersection dictionary matter to the loop. *)
Lemma place_cars_ext (ints ints' : gmap pos Intersection.t) (draws : list nat)
    (remaining : nat) (i : Z) (cs : list Car.t) :
  (∀ p, ints !! p = None ↔ ints' !! p = None) →
  place_cars gs ints remaining i cs draws
  = place_cars gs ints' remaining i cs draws.
Proof.
  intros Hkeys.
  assert (∀ cs p, is_free ints cs p = is_free ints' cs p) as Hfree.
  { intros cs0 p. unfold is_free. specialize (Hkeys p).
    destruct (ints !! p), (ints' !! p); try done.
    - by pose proof (proj2 Hkeys eq_refl).
    - by pose proof (proj1 Hkeys eq_refl). }
  revert remaining i cs.
  induction draws as [draws IH] using (induction_ltof1 _ length).
  unfold ltof in IH. intros remaining i cs.
  destruct remaining as [|k]; [by destruct draws|].
  destruct draws as [|rx [|ry rest]]; simpl; try done.
  destruct (gs - 1 <? 0); [done|].
  rewrite Hfree. destruct (is_free ints' cs _).
  - destruct rest as [|rd rest']; [done|]. apply IH. simpl. lia.
  - apply IH. simpl. lia.
Qed.

Lemma place_intersections_fold (c c' : Z) (xs ys : list Z)
    (m m' : gmap pos Intersection.t) :
  (∀ p, m !! p = None ↔ m' !! p = None) →
  ∀ p,
    foldl (λ a x, foldl (λ a' y, <[(x, y) := Intersection.init (x, y) None c]> a')
                        a ys) m xs !! p = None
    ↔ foldl (λ a x, foldl (λ a' y, <[(x, y) := Intersection.init (x, y) None c']> a')
                          a ys) m' xs !! p = None.
Proof.
  revert m m'. induction xs as [|x xs IHx]; intros m m' Hm; [done|].
  simpl. apply IHx. clear IHx.
  revert m m' Hm. induction ys as [|y ys IHy]; intros m m' Hm; [done|].
  simpl. apply IHy. intros p. rewrite !lookup_insert_None.
  by rewrite Hm.
Qed.

(** The cycle length does not decide which cells are intersections. *)
Lemma place_intersections_keys (c c' : Z) (p : pos) :
  place_intersections gs c !! p = None ↔ place_intersections gs c' !! p = None.
Proof. by apply place_intersections_fold. Qed.

(** Every intersection the constructor makes carries the given cycle
    length, whatever it is. *)
Lemma place_intersections_cycle (c : Z) (p : pos) (j : Intersection.t) :
  place_intersections gs c !! p = Some j → j = Intersection.init p None c.
Proof.
  unfold place_intersections.
  assert (∀ xs ys (m : gmap pos Intersection.t),
            (∀ q k, m !! q = Some k → k = Intersection.init q None c) →
            ∀ q k,
              foldl (λ a x,
                       foldl (λ a' y, <[(x, y) := Intersection.init (x, y) None c]> a')
                             a ys) m xs !! q = Some k →
              k = Intersection.init q None c) as Hfold.
  { induction xs as [|x xs IHx]; intros ys m Hm; [done|].
    simpl. apply IHx. clear IHx.
    revert m Hm. induction ys as [|y ys IHy]; intros m Hm; [done|].
    simpl. apply IHy. intros q k Hq.
    apply lookup_insert_Some in Hq as [[<- <-]|[_ Hq]]; [done|by apply Hm]. }
  apply Hfold. intros q k Hq. by rewrite lookup_empty in Hq.
Qed.

Lemma length_well_placed (ints : gmap pos Intersection.t) (cs : list Car.t) :
  well_placed gs ints cs → (length cs ≤ length (free_cells gs ints))%nat.
Proof.
  intros [Hnd Hsub]. rewrite <- (length_fmap Car.position cs).
  by apply submseteq_length, NoDup_submseteq.
Qed.

End Construction.

(** C7 (as the code has it): the constructor checks nothing.  Without cars
    to place it returns for every grid size and every cycle length; with a
    non-positive grid size and a car to place it raises [ValueError] from
    [randint]; the cycle length never decides whether it returns, and each
    intersection stores it as given; on a grid of positive size with more
    cars than free cells the placement loop does not come to an end,
    whatever is drawn. *)
Theorem constructor_checks_nothing (gs n cycle : Z) (draws : list nat) :
  (n ≤ 0 →
   Simulator.init gs n cycle draws
   = Returned (Simulator.mk gs 0 [] (Simulator.place_intersections gs cycle)
                 (RoadNetwork.init gs)))
  ∧ (gs ≤ 0 → 0 < n → Simulator.init gs n cycle draws = Raised ValueError)
  ∧ (∀ cycle',
       Simulator.place_cars gs (Simulator.place_intersections gs cycle')
         (Z.to_nat n) 0 [] draws
       = Simulator.place_cars gs (Simulator.place_intersections gs cycle)
           (Z.to_nat n) 0 [] draws)
  ∧ (∀ s p j,
       Simulator.init gs n cycle draws = Returned s →
       Simulator.intersections s !! p = Some j →
       Intersection.cycle_length j = cycle)
  ∧ (1 ≤ gs →
     Z.of_nat (length (free_cells gs (Simulator.place_intersections gs cycle))) < n →
     Simulator.init gs n cycle draws = Looping).
Proof.
  unfold Simulator.init. repeat split.
  - intros Hn. replace (Z.to_nat n) with O by lia. by destruct draws.
  - intros Hgs Hn. destruct (Z.to_nat n) as [|k] eqn:Hk; [lia|].
    by rewrite place_cars_empty_range.
  - intros cycle'. apply place_cars_ext, place_intersections_keys.
  - intros s p j Hret Hj.
    destruct (Simulator.place_cars _ _ _ _ _ _); try done.
    injection Hret as <-. simpl in Hj.
    by rewrite (place_intersections_cycle gs cycle p j Hj).
  - intros Hgs Hmany.
    destruct (Simulator.place_cars _ _ _ _ _ _) as [cs|e|] eqn:Hrun; [| |done].
    + exfalso.
      destruct (place_cars_well_placed gs _ _ _ _ _ _ Hrun) as [Hwp Hlen].
      { split; [constructor|]. intros p Hp. by apply elem_of_nil in Hp. }
      apply length_well_placed in Hwp. simpl in Hlen. lia.
    + apply place_cars_raised in Hrun. lia.
Qed.

Lemma constructor_checks_nothing_witness :
  Simulator.init (-3) 0 0 []
  = Returned (Simulator.mk (-3) 0 [] (Simulator.place_intersections (-3) 0)
                (RoadNetwork.init (-3)))
  ∧ Simulator.init 0 2 5 [4; 4; 1]%nat = Raised ValueError
  ∧ Simulator.init 2 4 5 [0; 1; 2; 1; 1; 0; 1; 0; 3; 0; 0; 1]%nat = Looping.
Proof.
  split; [|split].
  - apply (constructor_checks_nothing (-3) 0 0 []). lia.
  - apply (constructor_checks_nothing 0 2 5 [4; 4; 1]%nat); lia.
  - apply (constructor_checks_nothing 2 4 5); [lia|]. vm_compute. reflexivity.
Defined.

(** C7 fails on the code: a non-positive cycle length and a non-positive
    grid size are both accepted, and the engine is returned. *)
Lemma constructor_accepts_bad_configuration :
  Simulator.init 10 1 0 [1; 0; 2]%nat
  = Returned (Simulator.mk 10 0 [Car.init 0 (1, 0) "E" None None]
                (Simulator.place_intersections 10 0) (RoadNetwork.init 10))
  ∧ Simulator.init 0 0 5 []
    = Returned (Simulator.mk 0 0 [] ∅ (RoadNetwork.init 0)).
Proof. split; vm_compute; reflexivity. Qed.

(** * Order of the pass and the collision rule *)

(** C2 fails on the code: car 0 at (1,0) heads north off the grid and stays;
    car 1 at (2,0) heads west to (1,0), an in-bounds cell without a light.
    Nobody has claimed (1,0) and no later car stands there, yet the
    collision check fires, because car 0, visited earlier, is still there. *)
Lemma collision_check_sees_earlier_cars :
  Simulator.init 10 2 5 [1; 0; 0; 2; 0; 3]%nat
  = Returned (engine_with [Car.init 0 (1, 0) "N" None None;
                           Car.init 1 (2, 0) "W" None None])
  ∧ let self := engine_with [Car.init 0 (1, 0) "N" None None;
                             Car.init 1 (2, 0) "W" None None] in
    let st := Simulator.pass_before self 1 in
    let car := Car.init 1 (2, 0) "W" None None in
    Simulator.cars st.1 !! 1%nat = Some car
    ∧ Simulator._get_next_position car = (1, 0)
    ∧ Simulator._in_bounds st.1 (1, 0) = true
    ∧ Simulator.red_light st.1 (1, 0) car = false
    ∧ Simulator.collides st.1 st.2 (1, 0) = true
    ∧ claimed_or_ahead st 1 (1, 0) = false.
Proof. vm_compute. repeat split; reflexivity. Qed.

(** C2 (as the code has it): the cars are visited in list order, which is
    the order of their ids 0, 1, 2, ... for an engine the constructor
    returned.  The collision check rejects the candidate of the car at
    index [i] exactly when the candidate is the position of some car of the
    list at that moment: the position the tick leaves an earlier-visited car
    at (moved or not), or the pre-tick position of a car not visited earlier
    (the car itself or a later one). *)
Theorem collision_check_looks_at_every_car (self : Simulator.t) (i : nat) (car : Car.t) :
  Simulator.cars self !! i = Some car →
  (∀ gs n cycle draws s,
     Simulator.init gs n cycle draws = Returned s →
     Car.id <$> Simulator.cars s = Z.of_nat <$> seq 0 (Z.to_nat n))
  ∧ Simulator.pass_before self (S i) = Simulator.visit i (Simulator.pass_before self i)
  ∧ Simulator.cars (Simulator.pass_before self i).1 !! i = Some car
  ∧ (Simulator.collides (Simulator.pass_before self i).1
       (Simulator.pass_before self i).2 (Simulator._get_next_position car) = true
     ↔ (∃ j other, (j < i)%nat
          ∧ Simulator.cars (Simulator.update self) !! j = Some other
          ∧ Car.position other = Simulator._get_next_position car)
       ∨ (∃ j other, (i ≤ j)%nat
            ∧ Simulator.cars self !! j = Some other
            ∧ Car.position other = Simulator._get_next_position car)).
Proof.
  intros Hi. split; [|split; [|split]].
  - intros gs n cycle draws s Hret. unfold Simulator.init in Hret.
    destruct (Simulator.place_cars _ _ _ _ _ _) as [cs| |] eqn:Hrun; try done.
    injection Hret as <-. simpl.
    rewrite (place_cars_ids gs _ _ _ _ _ _ Hrun). simpl.
    apply list_fmap_ext. intros j x _. lia.
  - apply pass_before_S.
  - rewrite pass_untouched by lia. done.
  - apply collides_spec. apply lookup_lt_Some in Hi. lia.
Qed.

Lemma collision_check_looks_at_every_car_witness :
  Simulator.collides
    (Simulator.pass_before
       (engine_with [Car.init 0 (1, 0) "N" None None;
                     Car.init 1 (2, 0) "W" None None]) 1).1
    (Simulator.pass_before
       (engine_with [Car.init 0 (1, 0) "N" None None;
                     Car.init 1 (2, 0) "W" None None]) 1).2
    (Simulator._get_next_position (Car.init 1 (2, 0) "W" None None)) = true.
Proof.
  apply (collision_check_looks_at_every_car
           (engine_with [Car.init 0 (1, 0) "N" None None;
                         Car.init 1 (2, 0) "W" None None]) 1
           (Car.init 1 (2, 0) "W" None None)); [reflexivity|].
  left. exists 0%nat, (Car.init 0 (1, 0) "N" None None).
  split; [lia|]. split; vm_compute; reflexivity.
Defined.

(** * The scenario of the specification *)

(** C9 fails on the code: (3,0) is an intersection whose east-west light is
    red during the first four ticks, so after three ticks the car is at
    (2,0), not at (4,0). *)
Lemma scenario_car_is_not_at_4_0 :
  Car.position <$> Simulator.cars (Simulator.run 3 scenario_engine) ≠ [(4, 0)].
Proof. vm_compute. discriminate. Qed.

(** C9 (as the code has it): in the scenario the car moves to (2,0) on the
    first tick, waits there at the red light of (3,0) during ticks 2 to 4,
    enters (3,0) on tick 5 when the light has turned, and is at (4,0) after
    tick 6. *)
Theorem scenario_car_waits_at_red_light :
  (λ n, Car.position <$> Simulator.cars (Simulator.run n scenario_engine))
    <$> [0; 1; 2; 3; 4; 5; 6]%nat
  = [[(1, 0)]; [(2, 0)]; [(2, 0)]; [(2, 0)]; [(2, 0)]; [(3, 0)]; [(4, 0)]]
  ∧ Simulator.red_light (Simulator.advance_lights (Simulator.run 2 scenario_engine))
      (3, 0) (Car.init 0 (2, 0) "E" None None) = true.
Proof. vm_compute. split; reflexivity. Qed.

(** * Path finding *)

(** C6 fails on the code: the path from a cell to itself is the empty list,
    not the one-element list. *)
Lemma find_path_same_cell_is_empty :
  Simulator.find_path scenario_engine (1, 0) (1, 0) ≠ [(1, 0)].
Proof. discriminate. Qed.

(** C6 (as the code has it): [find_path] returns the empty list for every
    pair of cells, equal or not.  The road network of an engine the
    constructor returned has no road cell and no neighbours, and [update]
    keeps it so: no pair of cells is ever connected by a road path. *)
Theorem find_path_always_empty (self : Simulator.t) (start goal : pos) :
  Simulator.find_path self start goal = []
  ∧ (∀ gs n cycle draws s p,
       Simulator.init gs n cycle draws = Returned s →
       RoadNetwork.is_road (Simulator.road_network s) p = false
       ∧ RoadNetwork.get_neighbors (Simulator.road_network s) p = [])
  ∧ Simulator.road_network (Simulator.update self) = Simulator.road_network self.
Proof.
  split; [done|]. split.
  - intros gs n cycle draws s p Hret. unfold Simulator.init in Hret.
    destruct (Simulator.place_cars _ _ _ _ _ _); try done.
    injection Hret as <-. split; [|done].
    unfold RoadNetwork.is_road. simpl. apply bool_decide_eq_false. set_solver.
  - apply pass_frame.
Qed.

Lemma find_path_always_empty_witness :
  Simulator.find_path scenario_engine (1, 0) (1, 0) = []
  ∧ RoadNetwork.is_road (Simulator.road_network scenario_engine) (1, 0) = false.
Proof.
  destruct (find_path_always_empty scenario_engine (1, 0) (1, 0)) as (Hnil & Hroad & _).
  split; [exact Hnil|].
  apply (Hroad 10 1 5 [1; 0; 2]%nat scenario_engine (1, 0)).
  vm_compute. reflexivity.
Defined.

(** * More on one tick: what a visit may and may not do *)

Section Tick.
Import Simulator.

Lemma in_bounds_grid_size (s s' : t) (p : pos) :
  grid_size s = grid_size s' → _in_bounds s p = _in_bounds s' p.
Proof. intros Hgs. unfold _in_bounds. by rewrite Hgs. Qed.

Lemma red_light_intersections (s s' : t) (p : pos) (car : Car.t) :
  intersections s = intersections s' → red_light s p car = red_light s' p car.
Proof. intros Hint. unfold red_light. by rewrite Hint. Qed.

(** The two outcomes of a tick for the car at index [i]: untouched, or moved
    after passing all three checks of its own visit. *)
Lemma update_car_cases (self : t) (i : nat) (car : Car.t) :
  cars self !! i = Some car →
  (cars (update self) !! i = Some car
   ∧ (_in_bounds self (_get_next_position car) = false
      ∨ red_light (advance_lights self) (_get_next_position car) car = true
      ∨ collides (pass_before self i).1 (pass_before self i).2
                 (_get_next_position car) = true))
  ∨ (cars (update self) !! i = Some (Car.move car)
     ∧ _in_bounds self (_get_next_position car) = true
     ∧ red_light (advance_lights self) (_get_next_position car) car = false
     ∧ collides (pass_before self i).1 (pass_before self i).2
                (_get_next_position car) = false).
Proof.
  intros Hi. rewrite (update_lookup self i car Hi).
  pose proof (pass_untouched self i i ltac:(lia)) as Hsame. rewrite Hi in Hsame.
  pose proof (pass_frame self i) as (Hgs & _ & Hints & _).
  destruct (pass_before self i) as [s np] eqn:Hst.
  simpl in Hsame, Hgs, Hints.
  change (s, np).1 with s. change (s, np).2 with np.
  rewrite <- (in_bounds_grid_size s self _ Hgs).
  rewrite <- (red_light_intersections s (advance_lights self) _ car Hints).
  destruct (visit_cases i s np car Hsame) as [[-> Hb]|(-> & Hin & Hgo & Hfree)].
  - left. done.
  - right. simpl. split; [|done].
    apply list_lookup_insert_eq. by eapply lookup_lt_Some.
Qed.

Lemma move_fields (c : Car.t) :
  Car.id (Car.move c) = Car.id c
  ∧ Car.direction (Car.move c) = Car.direction c
  ∧ Car.destination (Car.move c) = Car.destination c
  ∧ Car.path (Car.move c) = Car.path c.
Proof.
  unfold Car.move. destruct (Car.position c) as [x y].
  repeat (destruct (String.eqb _ _); [done|]). done.
Qed.

Lemma update_frame (self : t) :
  grid_size (update self) = grid_size self
  ∧ time_step (update self) = time_step self + 1
  ∧ intersections (update self) = Intersection.update_light <$> intersections self
  ∧ road_network (update self) = road_network self
  ∧ length (cars (update self)) = length (cars self).
Proof. apply pass_frame. Qed.

(** X1: a tick changes nothing of a car but its position: the car keeps its
    index, id, direction, destination and path, and its new position is
    either the old one or the candidate cell, which then lies on the grid. *)
Theorem update_changes_only_positions (self : t) (i : nat) (car : Car.t) :
  cars self !! i = Some car →
  ∃ car',
    cars (update self) !! i = Some car'
    ∧ Car.id car' = Car.id car
    ∧ Car.direction car' = Car.direction car
    ∧ Car.destination car' = Car.destination car
    ∧ Car.path car' = Car.path car
    ∧ (Car.position car' = Car.position car
       ∨ (Car.position car' = _get_next_position car
          ∧ _in_bounds self (Car.position car') = true)).
Proof.
  intros Hi.
  destruct (update_car_cases self i car Hi) as [[Hs _]|(Hm & Hin & _)].
  - exists car. auto 10.
  - exists (Car.move car). destruct (move_fields car) as (? & ? & ? & ?).
    rewrite move_position. auto 10.
Qed.

Lemma update_changes_only_positions_witness :
  ∃ car',
    cars (update scenario_engine) !! 0%nat = Some car'
    ∧ Car.id car' = 0
    ∧ Car.direction car' = "E"
    ∧ Car.destination car' = None
    ∧ Car.path car' = []
    ∧ (Car.position car' = (1, 0)
       ∨ (Car.position car' = (2, 0)
          ∧ _in_bounds scenario_engine (Car.position car') = true)).
Proof.
  apply (update_changes_only_positions scenario_engine 0
           (Car.init 0 (1, 0) "E" None None)).
  reflexivity.
Defined.

Lemma update_on_grid (self : t) :
  Forall (λ car, _in_bounds self (Car.position car) = true) (cars self) →
  Forall (λ car, _in_bounds (update self) (Car.position car) = true)
         (cars (update self)).
Proof.
  intros Hall. apply Forall_lookup. intros i car' Hi'.
  rewrite (in_bounds_grid_size _ self) by apply update_frame.
  destruct (cars self !! i) as [car|] eqn:Hi.
  - destruct (update_car_cases self i car Hi) as [[Hs _]|(Hm & Hin & _)].
    + rewrite Hi' in Hs. injection Hs as ->.
      by apply (proj1 (Forall_lookup _ _) Hall i).
    + rewrite Hi' in Hm. injection Hm as ->. by rewrite move_position.
  - apply lookup_ge_None in Hi. apply lookup_lt_Some in Hi'.
    destruct (update_frame self) as (_ & _ & _ & _ & Hlen). lia.
Qed.

(** X2: cars that are all on the grid are all on the grid after a tick. *)
Theorem update_keeps_cars_on_grid (self : t) :
  Forall (λ car, _in_bounds self (Car.position car) = true) (cars self) →
  Forall (λ car, _in_bounds (update self) (Car.position car) = true)
         (cars (update self)).
Proof. apply update_on_grid. Qed.

Lemma update_keeps_cars_on_grid_witness :
  Forall (λ car, _in_bounds (update scenario_engine) (Car.position car) = true)
         (cars (update scenario_engine)).
Proof.
  apply update_keeps_cars_on_grid. repeat constructor.
Defined.

(** X3: no car runs a red light.  When a tick has moved a car onto a cell
    with an intersection, that intersection, as the tick leaves it, is green
    for the car's direction. *)
Theorem moved_onto_intersection_had_green (self : t) (i : nat)
    (car car' : Car.t) (junction : Intersection.t) :
  cars self !! i = Some car →
  cars (update self) !! i = Some car' →
  Car.position car' ≠ Car.position car →
  intersections (update self) !! Car.position car' = Some junction →
  Intersection.is_green junction (Car.direction car') = true.
Proof.
  intros Hi Hi' Hmoved Hj.
  destruct (update_car_cases self i car Hi) as [[Hs _]|(Hm & _ & Hgo & _)];
    [congruence|].
  rewrite Hi' in Hm. injection Hm as ->.
  rewrite move_position in Hj.
  destruct (update_frame self) as (_ & _ & Hints & _).
  unfold red_light in Hgo. simpl in Hgo. rewrite <- Hints, Hj in Hgo.
  destruct (move_fields car) as (_ & -> & _).
  by apply negb_false_iff in Hgo.
Qed.

Lemma moved_onto_intersection_had_green_witness :
  Intersection.is_green (Intersection.update_light (Intersection.init (3, 3) None 5))
    "S" = true.
Proof.
  apply (moved_onto_intersection_had_green
           (engine_with [Car.init 0 (3, 2) "S" None None]) 0
           (Car.init 0 (3, 2) "S" None None)
           (Car.init 0 (3, 3) "S" None None)
           (Intersection.update_light (Intersection.init (3, 3) None 5)));
    vm_compute; (reflexivity || discriminate).
Defined.

(** X4: the cell a car moves onto is free.  When a tick has changed the
    position of the car at index [j], no car listed before it ends the tick
    on the new cell and no car listed after it started the tick there. *)
Theorem moved_onto_free_cell (self : t) (j : nat) (b b' : Car.t) :
  cars self !! j = Some b →
  cars (update self) !! j = Some b' →
  Car.position b' ≠ Car.position b →
  (∀ i a', (i < j)%nat → cars (update self) !! i = Some a' →
           Car.position a' ≠ Car.position b')
  ∧ (∀ k c, (j < k)%nat → cars self !! k = Some c →
            Car.position c ≠ Car.position b').
Proof.
  intros Hj Hj' Hmoved.
  destruct (update_car_cases self j b Hj) as [[Hs _]|(Hm & _ & _ & Hfree)];
    [congruence|].
  rewrite Hj' in Hm. injection Hm as ->. rewrite move_position.
  assert (¬ (collides (pass_before self j).1 (pass_before self j).2
               (_get_next_position b) = true)) as Hno by congruence.
  rewrite collides_spec in Hno by (apply lookup_lt_Some in Hj; lia).
  split.
  - intros i a' Hlt Hi Hp. apply Hno. left. eauto.
  - intros k c Hlt Hk Hp. apply Hno. right. exists k, c. split; [lia|done].
Qed.

Lemma moved_onto_free_cell_witness :
  (∀ i a', (i < 1)%nat →
     cars (update (engine_with [Car.init 0 (1, 0) "E" None None;
                                Car.init 1 (0, 1) "S" None None])) !! i = Some a' →
     Car.position a' ≠ (0, 2))
  ∧ (∀ k c, (1 < k)%nat →
       cars (engine_with [Car.init 0 (1, 0) "E" None None;
                          Car.init 1 (0, 1) "S" None None]) !! k = Some c →
       Car.position c ≠ (0, 2)).
Proof.
  apply (moved_onto_free_cell
           (engine_with [Car.init 0 (1, 0) "E" None None;
                         Car.init 1 (0, 1) "S" None None]) 1
           (Car.init 1 (0, 1) "S" None None)
           (Car.init 1 (0, 2) "S" None None));
    vm_compute; (reflexivity || discriminate).
Defined.

(** X5: of two cars with the same candidate cell at most one moves, and the
    one listed first has priority: if it ends the tick on the cell, the
    other one is left as it was. *)
Theorem first_listed_car_has_priority (self : t) (i j : nat) (a a' b : Car.t) :
  (i < j)%nat →
  cars self !! i = Some a →
  cars self !! j = Some b →
  _get_next_position a = _get_next_position b →
  cars (update self) !! i = Some a' →
  Car.position a' = _get_next_position a →
  cars (update self) !! j = Some b.
Proof.
  intros Hlt Hi Hj Hsame Hi' Hthere.
  destruct (update_car_cases self j b Hj) as [[Hs _]|(_ & _ & _ & Hfree)]; [done|].
  assert (collides (pass_before self j).1 (pass_before self j).2
            (_get_next_position b) = true) as Hhit; [|congruence].
  apply collides_spec; [apply lookup_lt_Some in Hj; lia|].
  left. exists i, a'. split; [done|]. split; [done|]. congruence.
Qed.

Lemma first_listed_car_has_priority_witness :
  cars (update (engine_with [Car.init 0 (4, 1) "E" None None;
                             Car.init 1 (5, 2) "N" None None])) !! 1%nat
  = Some (Car.init 1 (5, 2) "N" None None).
Proof.
  apply (first_listed_car_has_priority
           (engine_with [Car.init 0 (4, 1) "E" None None;
                         Car.init 1 (5, 2) "N" None None]) 0 1
           (Car.init 0 (4, 1) "E" None None)
           (Car.init 0 (5, 1) "E" None None)
           (Car.init 1 (5, 2) "N" None None));
    [lia|vm_compute; reflexivity..].
Defined.

End Tick.

(** * Many ticks *)

Section Run.
Import Simulator.

Lemma after_calls_update_light (n : nat) (j : Intersection.t) :
  Intersection.after_calls n (Intersection.update_light j)
  = Intersection.update_light (Intersection.after_calls n j).
Proof.
  unfold Intersection.after_calls. induction n as [|n IH]; [done|].
  simpl. by rewrite IH.
Qed.

Lemma run_fields (steps : nat) (self : t) :
  grid_size (run steps self) = grid_size self
  ∧ time_step (run steps self) = time_step self + Z.of_nat steps
  ∧ intersections (run steps self)
    = Intersection.after_calls steps <$> intersections self
  ∧ dom (intersections (run steps self)) = dom (intersections self)
  ∧ road_network (run steps self) = road_network self
  ∧ length (cars (run steps self)) = length (cars self).
Proof.
  assert (grid_size (run steps self) = grid_size self
          ∧ time_step (run steps self) = time_step self + Z.of_nat steps
          ∧ intersections (run steps self)
            = Intersection.after_calls steps <$> intersections self
          ∧ road_network (run steps self) = road_network self
          ∧ length (cars (run steps self)) = length (cars self)) as H.
  { induction steps as [|n (Hgs & Hts & Hints & Hrn & Hlen)].
    - repeat split; try done; try (simpl; lia).
      unfold Intersection.after_calls. simpl.
      by rewrite map_fmap_id.
    - rewrite run_S.
      destruct (update_frame (run n self)) as (-> & -> & -> & -> & ->).
      repeat split; try done; [lia|].
      rewrite Hints, <- map_fmap_compose. done. }
  destruct H as (Hgs & Hts & Hints & Hrn & Hlen).
  repeat split; try done. rewrite Hints. apply dom_fmap_L.
Qed.

(** X6: [steps] ticks add [steps] to the step counter and call
    [update_light] [steps] times on every intersection; the grid size, the
    road network, the keys of the intersection dictionary and the number of
    cars stay as they are. *)
Theorem run_frame (steps : nat) (self : t) :
  grid_size (run steps self) = grid_size self
  ∧ time_step (run steps self) = time_step self + Z.of_nat steps
  ∧ intersections (run steps self)
    = Intersection.after_calls steps <$> intersections self
  ∧ dom (intersections (run steps self)) = dom (intersections self)
  ∧ road_network (run steps self) = road_network self
  ∧ length (cars (run steps self)) = length (cars self).
Proof. apply run_fields. Qed.

(** X7: a car whose candidate cell is off the grid is stuck for good: it
    is the same car at the same place after any number of ticks. *)
Theorem car_at_edge_is_stuck (self : t) (i : nat) (car : Car.t) (steps : nat) :
  cars self !! i = Some car →
  _in_bounds self (_get_next_position car) = false →
  cars (run steps self) !! i = Some car.
Proof.
  intros Hi Hout. induction steps as [|n IH]; [done|].
  rewrite run_S.
  destruct (update_car_cases (run n self) i car IH) as [[Hs _]|(_ & Hin & _)];
    [done|].
  rewrite (in_bounds_grid_size _ self) in Hin by apply run_fields. congruence.
Qed.

Lemma car_at_edge_is_stuck_witness :
  cars (run 12 (engine_with [Car.init 0 (4, 0) "N" None None])) !! 0%nat
  = Some (Car.init 0 (4, 0) "N" None None).
Proof.
  apply (car_at_edge_is_stuck
           (engine_with [Car.init 0 (4, 0) "N" None None]) 0
           (Car.init 0 (4, 0) "N" None None) 12); reflexivity.
Defined.

(** X8: cars drive straight.  After [steps] ticks a car with a cardinal
    direction is the same car, displaced by [k] unit deltas of its direction
    for some [k] between 0 and [steps]. *)
Theorem cars_drive_straight (self : t) (i : nat) (car : Car.t) (dx dy : Z)
    (steps : nat) :
  cars self !! i = Some car →
  unit_delta (Car.direction car) = Some (dx, dy) →
  ∃ k, 0 ≤ k ≤ Z.of_nat steps
    ∧ cars (run steps self) !! i
      = Some (Car.set_position car
                ((Car.position car).1 + k * dx, (Car.position car).2 + k * dy)).
Proof.
  intros Hi Hd. induction steps as [|n (k & Hk & IH)].
  - exists 0. split; [lia|]. simpl. rewrite Hi. f_equal.
    destruct car as [? [x y] ? ? ?]. unfold Car.set_position. simpl.
    do 2 f_equal; lia.
  - rewrite run_S.
    destruct (update_car_cases (run n self) i _ IH) as [[Hs _]|(Hm & _)].
    + exists k. split; [lia|done].
    + exists (k + 1). split; [lia|]. rewrite Hm.
      rewrite (unit_delta_move _ dx dy) by done.
      unfold Car.set_position. simpl. do 3 f_equal; lia.
Qed.

Lemma cars_drive_straight_witness :
  ∃ k, 0 ≤ k ≤ 6
    ∧ cars (run 6 scenario_engine) !! 0%nat
      = Some (Car.set_position (Car.init 0 (1, 0) "E" None None)
                (1 + k * 1, 0 + k * 0)).
Proof.
  apply (cars_drive_straight scenario_engine 0
           (Car.init 0 (1, 0) "E" None None) 1 0 6); reflexivity.
Defined.

Lemma update_NoDup_positions (self : t) :
  NoDup (Car.position <$> cars self) →
  NoDup (Car.position <$> cars (update self)).
Proof.
  intros Hnd. unfold update.
  induction (length (cars self)) as [|n IH]; [done|].
  rewrite pass_before_S. by apply visit_NoDup.
Qed.

End Run.

(** * More on the traffic light *)

Section LightCycle.
Import Intersection.

Lemma div_succ (k c : Z) :
  0 ≤ k → 1 ≤ c →
  (k + 1) / c = if k mod c + 1 >=? c then k / c + 1 else k / c.
Proof.
  intros Hk Hc.
  pose proof (Z.mod_pos_bound k c ltac:(lia)) as Hb.
  pose proof (Z.div_mod k c ltac:(lia)) as Hdm.
  destruct (Z.geb_spec (k mod c + 1) c) as [Hge|Hlt].
  - symmetry. apply (Z.div_unique_pos _ _ _ 0); lia.
  - symmetry. apply (Z.div_unique_pos _ _ _ (k mod c + 1)); lia.
Qed.

Lemma light_closed_form (p : pos) (cycle : Z) (n : nat) :
  1 ≤ cycle →
  light_state (after_calls n (init p None cycle))
  = (if Z.even (Z.of_nat n / cycle)
     then mk_lights "green" "red" else mk_lights "red" "green")
  ∧ timer (after_calls n (init p None cycle)) = Z.of_nat n mod cycle
  ∧ position (after_calls n (init p None cycle)) = p
  ∧ cycle_length (after_calls n (init p None cycle)) = cycle.
Proof.
  intros Hc.
  split; [|split; [by apply timer_after_calls|split]].
  - induction n as [|n IH].
    + by rewrite Z.div_0_l by lia.
    + pose proof (timer_after_calls p None cycle n Hc) as Ht.
      pose proof (after_calls_cycle_length n (init p None cycle)) as Hcl.
      simpl in Hcl. rewrite after_calls_S.
      replace (Z.of_nat (S n)) with (Z.of_nat n + 1) by lia.
      rewrite div_succ by lia. rewrite <- Ht.
      set (i := after_calls n _) in *.
      unfold update_light. rewrite Hcl.
      destruct (timer i + 1 >=? cycle); simpl; [|done].
      rewrite IH, Z.add_1_r, Z.even_succ, <- Z.negb_even.
      by destruct (Z.even _).
  - induction n as [|n IH]; [done|].
    rewrite after_calls_S. by rewrite (proj1 (update_light_fields _)).
  - apply after_calls_cycle_length.
Qed.

(** X9: the light in closed form.  A default intersection with cycle length
    at least 1 shows, after [n] calls, NS green and EW red when the number
    of completed cycles [n / cycle] is even and the opposite when it is odd;
    its timer is [n mod cycle]. *)
Theorem light_after_calls (p : pos) (cycle : Z) (n : nat) :
  1 ≤ cycle →
  light_state (after_calls n (init p None cycle))
  = (if Z.even (Z.of_nat n / cycle)
     then mk_lights "green" "red" else mk_lights "red" "green")
  ∧ timer (after_calls n (init p None cycle)) = Z.of_nat n mod cycle
  ∧ position (after_calls n (init p None cycle)) = p
  ∧ cycle_length (after_calls n (init p None cycle)) = cycle.
Proof. apply light_closed_form. Qed.

Lemma light_after_calls_witness :
  light_state (after_calls 13 (init (3, 0) None 5))
  = mk_lights "green" "red"
  ∧ timer (after_calls 13 (init (3, 0) None 5)) = 3
  ∧ position (after_calls 13 (init (3, 0) None 5)) = (3, 0)
  ∧ cycle_length (after_calls 13 (init (3, 0) None 5)) = 5.
Proof. apply (light_after_calls (3, 0) 5 13). lia. Defined.

Lemma intersection_eq (i j : t) :
  position i = position j → light_state i = light_state j →
  cycle_length i = cycle_length j → timer i = timer j → i = j.
Proof. destruct i, j. simpl. by intros -> -> -> ->. Qed.

(** X10: the light is periodic.  Two full cycles of calls bring a default
    intersection with cycle length at least 1 back to the very same
    state. *)
Theorem light_period (p : pos) (cycle : Z) (n : nat) :
  1 ≤ cycle →
  after_calls (n + Z.to_nat (2 * cycle)) (init p None cycle)
  = after_calls n (init p None cycle).
Proof.
  intros Hc.
  destruct (light_closed_form p cycle (n + Z.to_nat (2 * cycle)) Hc)
    as (Hl1 & Ht1 & Hp1 & Hc1).
  destruct (light_closed_form p cycle n Hc) as (Hl2 & Ht2 & Hp2 & Hc2).
  replace (Z.of_nat (n + Z.to_nat (2 * cycle))) with (Z.of_nat n + 2 * cycle)
    in Hl1, Ht1 by lia.
  apply intersection_eq; try congruence.
  - rewrite Hl1, Hl2. rewrite Z.div_add by lia.
    replace (Z.of_nat n / cycle + 2) with (Z.of_nat n / cycle + 2 * 1) by lia.
    by rewrite Z.even_add_mul_2.
  - rewrite Ht1, Ht2. by rewrite Z.mod_add by lia.
Qed.

Lemma light_period_witness :
  after_calls (7 + Z.to_nat (2 * 5)) (init (3, 0) None 5)
  = after_calls 7 (init (3, 0) None 5).
Proof. apply (light_period (3, 0) 5 7). lia. Defined.

(** X11: with a cycle length of 1 or less, zero and negative ones included,
    a default intersection flips on every single call: NS is green after an
    even number of calls and red after an odd number, and the timer is
    always 0. *)
Theorem short_cycle_flips_every_call (p : pos) (cycle : Z) (n : nat) :
  cycle ≤ 1 →
  light_state (after_calls n (init p None cycle))
  = (if Nat.even n then mk_lights "green" "red" else mk_lights "red" "green")
  ∧ timer (after_calls n (init p None cycle)) = 0.
Proof.
  intros Hc. induction n as [|n [IHl IHt]]; [done|].
  pose proof (after_calls_cycle_length n (init p None cycle)) as Hcl.
  simpl in Hcl. rewrite after_calls_S, Nat.even_succ, <- Nat.negb_even.
  set (i := after_calls n _) in *.
  unfold update_light. rewrite Hcl, IHt.
  destruct (Z.geb_spec (0 + 1) cycle); [|lia].
  rewrite IHl. by destruct (Nat.even n).
Qed.

Lemma short_cycle_flips_every_call_witness :
  light_state (after_calls 3 (init (0, 0) None (-4))) = mk_lights "red" "green"
  ∧ timer (after_calls 3 (init (0, 0) None (-4))) = 0.
Proof. apply (short_cycle_flips_every_call (0, 0) (-4) 3). lia. Defined.

(** X12: at an intersection with one axis green and the other red, north
    and south get the same answer, east and west get the same answer, the
    two axes get opposite answers, and a direction that is none of the four
    is never given green. *)
Theorem green_for_one_axis_only (i : t) (d : string) :
  one_green (light_state i) →
  is_green i "S" = is_green i "N"
  ∧ is_green i "W" = is_green i "E"
  ∧ is_green i "E" = negb (is_green i "N")
  ∧ (d ≠ "N" → d ≠ "S" → d ≠ "E" → d ≠ "W" → is_green i d = false).
Proof.
  intros Hone. unfold is_green.
  split; [done|]. split; [done|]. split.
  - simpl. by destruct Hone as [[-> ->]|[-> ->]].
  - intros HN HS HE HW.
    apply String.eqb_neq in HN, HS, HE, HW. by rewrite HN, HS, HE, HW.
Qed.

Lemma green_for_one_axis_only_witness :
  is_green (init (0, 0) None 5) "S" = is_green (init (0, 0) None 5) "N"
  ∧ is_green (init (0, 0) None 5) "W" = is_green (init (0, 0) None 5) "E"
  ∧ is_green (init (0, 0) None 5) "E" = negb (is_green (init (0, 0) None 5) "N")
  ∧ ("NE" ≠ "N" → "NE" ≠ "S" → "NE" ≠ "E" → "NE" ≠ "W" →
     is_green (init (0, 0) None 5) "NE" = false).
Proof.
  apply (green_for_one_axis_only (init (0, 0) None 5) "NE"). by left.
Defined.

End LightCycle.

(** * The printed grid *)

Section Render.
Import Simulator.





Lemma in_bounds_range (self : t) (p : pos) :
  _in_bounds self p = true ↔ (0 ≤ p.1 < grid_size self ∧ 0 ≤ p.2 < grid_size self).
Proof.
  destruct p as [x y]. unfold _in_bounds. simpl.
  rewrite !andb_true_iff, !Z.leb_le, !Z.ltb_lt. lia.
Qed.





End Render.

(** * More on construction *)

Section Placement.
Import Simulator.

Lemma choice_cardinal (raw : nat) :
  choice ["N"; "S"; "E"; "W"] raw ∈ ["N"; "S"; "E"; "W"].
Proof.
  unfold choice. simpl length.
  pose proof (Nat.mod_upper_bound raw 4 ltac:(lia)) as Hlt.
  destruct (raw mod 4)%nat as [|[|[|[|k]]]]; simpl; [| | | |lia];
    repeat (first [apply list_elem_of_here | apply list_elem_of_further]).
Qed.

(** The cars the loop appends are fresh: cardinal direction, no
    destination, empty path. *)
Lemma place_cars_fresh (gs : Z) (ints : gmap pos Intersection.t)
    (draws : list nat) (remaining : nat) (i : Z) (cs cs' : list Car.t) :
  place_cars gs ints remaining i cs draws = Returned cs' →
  ∃ new, cs' = (cs ++ new)%list
    ∧ Forall (λ car, Car.direction car ∈ ["N"; "S"; "E"; "W"]
                     ∧ Car.destination car = None ∧ Car.path car = []) new.
Proof.
  revert remaining i cs.
  induction draws as [draws IH] using (induction_ltof1 _ length).
  unfold ltof in IH. intros remaining i cs Hret.
  destruct remaining as [|k].
  { exists []. rewrite app_nil_r. split; [|done].
    destruct draws; simpl in Hret; by injection Hret as <-. }
  destruct draws as [|rx [|ry rest]]; simpl in Hret;
    destruct (gs - 1 <? 0); try done.
  destruct (is_free ints cs _).
  - destruct rest as [|rd rest']; [done|].
    apply IH in Hret as (new & -> & Hnew); [|simpl; lia].
    eexists (_ :: new). rewrite <- app_assoc. split; [done|].
    constructor; [|done]. split; [apply choice_cardinal|done].
  - apply IH in Hret; [done|simpl; lia].
Qed.

Lemma free_cells_spec (gs : Z) (ints : gmap pos Intersection.t) (p : pos) :
  p ∈ free_cells gs ints
  ↔ (0 ≤ p.1 < gs ∧ 0 ≤ p.2 < gs) ∧ ints !! p = None.
Proof.
  unfold free_cells. rewrite list_elem_of_filter.
  destruct p as [x y]. rewrite elem_of_grid_cells. simpl. tauto.
Qed.

(** X14: what a returning constructor has built.  The engine is at step 0
    with the given grid size, has exactly [num_cars] cars with the ids
    0, 1, 2, ... in list order, on pairwise distinct cells of the grid that
    are not intersections, each with one of the four directions, no
    destination and an empty path. *)
Theorem constructor_postcondition (gs n cycle : Z) (draws : list nat) (s : t) :
  init gs n cycle draws = Returned s →
  grid_size s = gs ∧ time_step s = 0
  ∧ intersections s = place_intersections gs cycle
  ∧ length (cars s) = Z.to_nat n
  ∧ Car.id <$> cars s = Z.of_nat <$> seq 0 (Z.to_nat n)
  ∧ NoDup (Car.position <$> cars s)
  ∧ Forall (λ car, _in_bounds s (Car.position car) = true
                   ∧ intersections s !! Car.position car = None
                   ∧ Car.direction car ∈ ["N"; "S"; "E"; "W"]
                   ∧ Car.destination car = None ∧ Car.path car = [])
           (cars s).
Proof.
  unfold init. intros Hret.
  destruct (place_cars _ _ _ _ _ _) as [cs| |] eqn:Hrun; try done.
  injection Hret as <-. simpl.
  destruct (place_cars_well_placed gs _ _ _ _ _ _ Hrun) as [[Hnd Hsub] Hlen].
  { split; [constructor|]. intros p Hp. by apply elem_of_nil in Hp. }
  destruct (place_cars_fresh gs _ _ _ _ _ _ Hrun) as (new & -> & Hnew).
  split; [done|]. split; [done|]. split; [done|]. split; [done|]. split.
  { rewrite (place_cars_ids gs _ _ _ _ _ _ Hrun). simpl.
    apply list_fmap_ext. intros j x _. lia. }
  split; [done|]. simpl.
  apply Forall_lookup. intros j car Hj.
  pose proof (proj1 (Forall_lookup _ _) Hnew j car Hj) as (Hd & Hdest & Hpath).
  assert (Car.position car ∈ free_cells gs (place_intersections gs cycle)) as Hin.
  { apply Hsub, list_elem_of_fmap. exists car. split; [done|].
    apply list_elem_of_lookup. eauto. }
  apply free_cells_spec in Hin as [Hrange Hnone].
  split; [|done]. apply in_bounds_range. done.
Qed.

Lemma constructor_postcondition_witness :
  grid_size scenario_engine = 10 ∧ time_step scenario_engine = 0
  ∧ intersections scenario_engine = place_intersections 10 5
  ∧ length (cars scenario_engine) = Z.to_nat 1
  ∧ Car.id <$> cars scenario_engine = Z.of_nat <$> seq 0 (Z.to_nat 1)
  ∧ NoDup (Car.position <$> cars scenario_engine)
  ∧ Forall (λ car, _in_bounds scenario_engine (Car.position car) = true
                   ∧ intersections scenario_engine !! Car.position car = None
                   ∧ Car.direction car ∈ ["N"; "S"; "E"; "W"]
                   ∧ Car.destination car = None ∧ Car.path car = [])
           (cars scenario_engine).
Proof.
  apply (constructor_postcondition 10 1 5 [1; 0; 2]%nat scenario_engine).
  vm_compute. reflexivity.
Defined.

(** X15: an engine the constructor returned never has a collision and never
    loses a car off the grid: after any number of ticks the cars are on
    pairwise distinct cells of the grid and carry the ids 0, 1, 2, ... in
    list order. *)
Theorem constructed_engine_stays_safe (gs n cycle : Z) (draws : list nat) (s : t)
    (steps : nat) :
  init gs n cycle draws = Returned s →
  NoDup (Car.position <$> cars (run steps s))
  ∧ Forall (λ car, _in_bounds (run steps s) (Car.position car) = true)
           (cars (run steps s))
  ∧ Car.id <$> cars (run steps s) = Z.of_nat <$> seq 0 (Z.to_nat n).
Proof.
  unfold init. intros Hret.
  destruct (place_cars _ _ _ _ _ _) as [cs| |] eqn:Hrun; try done.
  injection Hret as <-.
  destruct (place_cars_well_placed gs _ _ _ _ _ _ Hrun) as [[Hnd Hsub] Hlen].
  { split; [constructor|]. intros p Hp. by apply elem_of_nil in Hp. }
  pose proof (place_cars_ids gs _ _ _ _ _ _ Hrun) as Hids. simpl in Hids.
  set (s := mk gs 0 cs _ _).
  induction steps as [|k (IHnd & IHin & IHids)].
  - split; [done|]. split.
    + apply Forall_lookup. intros j car Hj. apply in_bounds_range.
      apply (free_cells_spec gs (place_intersections gs cycle)).
      apply Hsub, list_elem_of_fmap. exists car. split; [done|].
      apply list_elem_of_lookup. eauto.
    + simpl. rewrite Hids. apply list_fmap_ext. intros j x _. lia.
  - rewrite run_S. split; [by apply update_NoDup_positions|].
    split; [by apply update_on_grid|].
    rewrite <- IHids. apply list_eq. intros j.
    rewrite !list_lookup_fmap.
    destruct (cars (run k s) !! j) as [car|] eqn:Hj.
    + destruct (update_car_cases (run k s) j car Hj) as [[-> _]|[-> _]]; [done|].
      simpl. by rewrite (proj1 (move_fields car)).
    + apply lookup_ge_None in Hj.
      rewrite (proj2 (lookup_ge_None _ _)); [done|].
      destruct (update_frame (run k s)) as (_ & _ & _ & _ & ->). done.
Qed.

Lemma constructed_engine_stays_safe_witness :
  NoDup (Car.position <$> cars (run 9 scenario_engine))
  ∧ Forall (λ car, _in_bounds (run 9 scenario_engine) (Car.position car) = true)
           (cars (run 9 scenario_engine))
  ∧ Car.id <$> cars (run 9 scenario_engine) = Z.of_nat <$> seq 0 (Z.to_nat 1).
Proof.
  apply (constructed_engine_stays_safe 10 1 5 [1; 0; 2]%nat scenario_engine 9).
  vm_compute. reflexivity.
Defined.

End Placement.

(** * Where the lights are and when construction can return *)

Section Layout.
Import Simulator.

Lemma elem_of_range3 (n x : Z) : x ∈ range3 n ↔ 0 ≤ x < n ∧ x mod 3 = 0.
Proof.
  unfold range3. rewrite list_elem_of_In, in_map_iff. split.
  - intros (k & <- & Hk). apply in_seq in Hk.
    pose proof (Z.div_mod (n + 2) 3 ltac:(lia)).
    pose proof (Z.mod_pos_bound (n + 2) 3 ltac:(lia)).
    split; [lia|]. by rewrite Z.mul_comm, Z.mod_mul by lia.
  - intros [Hx Hm]. exists (Z.to_nat (x / 3)).
    pose proof (Z.div_mod x 3 ltac:(lia)).
    pose proof (Z.div_mod (n + 2) 3 ltac:(lia)).
    pose proof (Z.mod_pos_bound (n + 2) 3 ltac:(lia)).
    split; [lia|]. apply in_seq. lia.
Qed.

Lemma place_fold_is_Some (c : Z) (xs ys : list Z) (m : gmap pos Intersection.t)
    (a b : Z) :
  is_Some (foldl (λ m1 x,
                    foldl (λ m2 y, <[(x, y) := Intersection.init (x, y) None c]> m2)
                          m1 ys) m xs !! (a, b))
  ↔ (a ∈ xs ∧ b ∈ ys) ∨ is_Some (m !! (a, b)).
Proof.
  assert (∀ x (m1 : gmap pos Intersection.t),
            is_Some (foldl (λ m2 y, <[(x, y) := Intersection.init (x, y) None c]> m2)
                           m1 ys !! (a, b))
            ↔ (a = x ∧ b ∈ ys) ∨ is_Some (m1 !! (a, b))) as Hinner.
  { intros x. induction ys as [|y ys IHy]; intros m1; simpl.
    - rewrite elem_of_nil. tauto.
    - rewrite IHy, elem_of_cons, lookup_insert_is_Some'. split.
      + intros [[-> Hb]|[[= -> ->]|Hs]];
          [left; split; [done|by right]|left; split; [done|by left]|by right].
      + intros [[-> [->|Hb]]|Hs]; [right; by left|left; done|right; by right]. }
  revert m. induction xs as [|x xs IHx]; intros m; simpl.
  - rewrite elem_of_nil. tauto.
  - rewrite IHx, Hinner, elem_of_cons. tauto.
Qed.

(** X16: where the lights are.  The constructor puts an intersection on
    exactly the cells of the grid whose two coordinates are both multiples
    of 3, each in the default state with the given cycle length. *)
Theorem intersections_on_every_third_cell (gs cycle x y : Z) :
  place_intersections gs cycle !! (x, y)
  = if decide ((0 ≤ x < gs ∧ x mod 3 = 0) ∧ (0 ≤ y < gs ∧ y mod 3 = 0))
    then Some (Intersection.init (x, y) None cycle)
    else None.
Proof.
  pose proof (place_fold_is_Some cycle (range3 gs) (range3 gs) ∅ x y) as Hsome.
  fold (place_intersections gs cycle) in Hsome.
  rewrite !elem_of_range3, lookup_empty in Hsome.
  destruct (place_intersections gs cycle !! (x, y)) as [j|] eqn:Hj.
  - rewrite decide_True.
    + by rewrite (place_intersections_cycle gs cycle (x, y) j Hj).
    + destruct (proj1 Hsome) as [?|[? [=]]]; eauto.
  - rewrite decide_False; [done|]. intros H.
    destruct (proj2 Hsome (or_introl H)) as [? [=]].
Qed.

Lemma randint_draw (gs x : Z) : 0 ≤ x < gs → randint 0 (gs - 1) (Z.to_nat x) = x.
Proof.
  intros Hx. unfold randint. replace (gs - 1 - 0 + 1) with gs by lia.
  rewrite Z2Nat.id by lia. rewrite Z.mod_small by lia. lia.
Qed.

(** Draws that name distinct free cells make the loop take them in turn. *)
Lemma place_cars_draws_for (gs : Z) (ints : gmap pos Intersection.t)
    (ps : list pos) (i : Z) (cs : list Car.t) :
  NoDup ps →
  (∀ p, p ∈ ps → p ∈ free_cells gs ints ∧ p ∉ Car.position <$> cs) →
  ∃ cs', place_cars gs ints (length ps) i cs (draws_for ps) = Returned cs'.
Proof.
  revert i cs. induction ps as [|p ps IH]; intros i cs Hnd Hfree.
  - exists cs. done.
  - apply NoDup_cons in Hnd as [Hp Hnd].
    destruct (Hfree p) as [Hcell Hnew]; [apply list_elem_of_here|].
    apply free_cells_spec in Hcell as [[Hx Hy] Hnone].
    destruct p as [x y]. simpl in Hx, Hy.
    change (draws_for ((x, y) :: ps))
      with (Z.to_nat x :: Z.to_nat y :: 0%nat :: draws_for ps).
    simpl. destruct (Z.ltb_spec (gs - 1) 0) as [|_]; [lia|].
    rewrite !randint_draw by lia.
    rewrite (proj2 (is_free_spec ints cs (x, y))) by done.
    apply IH; [done|]. intros q Hq.
    destruct (Hfree q) as [Hqc Hqn]; [by apply list_elem_of_further|].
    split; [done|]. rewrite fmap_app. intros Hin.
    apply elem_of_app in Hin as [Hin|Hin]; [done|].
    apply list_elem_of_singleton in Hin. simpl in Hin. by subst q.
Qed.

Lemma NoDup_grid_cells (gs : Z) : NoDup (grid_cells gs).
Proof.
  unfold grid_cells. apply NoDup_bind; [| |apply NoDup_seqZ].
  - intros x1 x2 [a b] _ _ H1 H2.
    apply list_elem_of_bind in H1 as (y1 & H1 & _).
    apply list_elem_of_bind in H2 as (y2 & H2 & _).
    apply list_elem_of_singleton in H1, H2. congruence.
  - intros x _. apply NoDup_bind; [| |apply NoDup_seqZ].
    + intros y1 y2 [a b] _ _ H1 H2.
      apply list_elem_of_singleton in H1, H2. congruence.
    + intros y _. apply NoDup_singleton.
Qed.

(** X17: construction can return whenever the cars fit.  For a number of
    cars between 0 and the number of free cells there are draws on which
    the constructor returns an engine. *)
Theorem constructor_can_return (gs n cycle : Z) :
  0 ≤ n ≤ Z.of_nat (length (free_cells gs (place_intersections gs cycle))) →
  ∃ draws s, init gs n cycle draws = Returned s.
Proof.
  intros Hn.
  set (ints := place_intersections gs cycle) in *.
  set (ps := take (Z.to_nat n) (free_cells gs ints)).
  assert (length ps = Z.to_nat n) as Hlen
    by (unfold ps; rewrite length_take; lia).
  destruct (place_cars_draws_for gs ints ps 0 []) as [cs Hcs].
  - apply (sublist_NoDup ps (free_cells gs ints)); [|apply sublist_take].
    apply NoDup_filter, NoDup_grid_cells.
  - intros p Hp. split; [|by intros ?%elem_of_nil].
    apply elem_of_take in Hp as (k & Hk & _).
    apply list_elem_of_lookup. eauto.
  - exists (draws_for ps), (mk gs 0 cs ints (RoadNetwork.init gs)).
    unfold init. fold ints. by rewrite <- Hlen, Hcs.
Qed.

Lemma constructor_can_return_witness :
  ∃ draws s, init 2 3 5 draws = Returned s.
Proof.
  apply (constructor_can_return 2 3 5). vm_compute. split; discriminate.
Defined.

End Layout.

(** * Lights of a running engine, and why a car stands still *)

Section Progress.
Import Simulator.

(** X18: the lights of an engine run in step.  In an engine the
    constructor returned, with cycle length at least 1, every intersection
    is after [steps] ticks the default intersection of its cell after
    [steps] calls: north-south traffic has green exactly when
    [steps / cycle] is even, east-west traffic exactly when it is odd. *)
Theorem constructed_lights_run_in_step (gs n cycle : Z) (draws : list nat)
    (s : t) (steps : nat) (p : pos) (j : Intersection.t) :
  init gs n cycle draws = Returned s →
  1 ≤ cycle →
  intersections (run steps s) !! p = Some j →
  j = Intersection.after_calls steps (Intersection.init p None cycle)
  ∧ Intersection.is_green j "N" = Z.even (Z.of_nat steps / cycle)
  ∧ Intersection.is_green j "S" = Z.even (Z.of_nat steps / cycle)
  ∧ Intersection.is_green j "E" = Z.odd (Z.of_nat steps / cycle)
  ∧ Intersection.is_green j "W" = Z.odd (Z.of_nat steps / cycle).
Proof.
  intros Hret Hc Hj.
  assert (intersections s = place_intersections gs cycle) as Hints.
  { unfold init in Hret.
    destruct (place_cars _ _ _ _ _ _); try done. by injection Hret as <-. }
  destruct (run_fields steps s) as (_ & _ & Hrun & _).
  rewrite Hrun, lookup_fmap, Hints in Hj.
  destruct (place_intersections gs cycle !! p) as [j0|] eqn:Hj0; [|done].
  apply place_intersections_cycle in Hj0 as ->.
  injection Hj as <-. split; [done|].
  destruct (light_closed_form p cycle steps Hc) as (Hl & _).
  unfold Intersection.is_green. simpl. rewrite Hl, <- Z.negb_even.
  by destruct (Z.even _).
Qed.

Lemma constructed_lights_run_in_step_witness :
  Intersection.after_calls 7 (Intersection.init (3, 0) None 5)
  = Intersection.after_calls 7 (Intersection.init (3, 0) None 5)
  ∧ Intersection.is_green
      (Intersection.after_calls 7 (Intersection.init (3, 0) None 5)) "N"
    = Z.even (7 / 5)
  ∧ Intersection.is_green
      (Intersection.after_calls 7 (Intersection.init (3, 0) None 5)) "S"
    = Z.even (7 / 5)
  ∧ Intersection.is_green
      (Intersection.after_calls 7 (Intersection.init (3, 0) None 5)) "E"
    = Z.odd (7 / 5)
  ∧ Intersection.is_green
      (Intersection.after_calls 7 (Intersection.init (3, 0) None 5)) "W"
    = Z.odd (7 / 5).
Proof.
  apply (constructed_lights_run_in_step 10 1 5 [1; 0; 2]%nat scenario_engine 7
           (3, 0) (Intersection.after_calls 7 (Intersection.init (3, 0) None 5)));
    [vm_compute; reflexivity|lia|vm_compute; reflexivity].
Defined.

(** X19: the two direction switches agree.  [Car.move] puts the car on the
    cell [_get_next_position] computed for it and changes nothing else, for
    every direction string; with a string that is none of the four the car
    is returned as it is. *)
Theorem move_goes_to_next_position (car : Car.t) :
  Car.move car = Car.set_position car (_get_next_position car)
  ∧ (Car.direction car ≠ "N" → Car.direction car ≠ "S" →
     Car.direction car ≠ "E" → Car.direction car ≠ "W" →
     Car.move car = car).
Proof.
  unfold Car.move, _get_next_position.
  destruct car as [i [x y] d dest route]. simpl. split.
  - repeat (destruct (String.eqb d _); [done|]). done.
  - intros HN HS HE HW.
    apply String.eqb_neq in HN, HS, HE, HW. by rewrite HN, HS, HE, HW.
Qed.

Lemma move_goes_to_next_position_witness :
  Car.move (Car.init 4 (2, 7) "up" None None)
  = Car.set_position (Car.init 4 (2, 7) "up" None None)
      (_get_next_position (Car.init 4 (2, 7) "up" None None))
  ∧ Car.move (Car.init 4 (2, 7) "up" None None) = Car.init 4 (2, 7) "up" None None.
Proof.
  destruct (move_goes_to_next_position (Car.init 4 (2, 7) "up" None None))
    as [Hmove Hsame].
  split; [exact Hmove|]. apply Hsame; discriminate.
Defined.

Lemma cardinal_next_differs (car : Car.t) (dx dy : Z) :
  unit_delta (Car.direction car) = Some (dx, dy) →
  _get_next_position car ≠ Car.position car.
Proof.
  unfold unit_delta, _get_next_position. destruct (Car.position car) as [x y].
  repeat (destruct (String.eqb _ _); [intros _ [=]; lia|]). done.
Qed.

(** X20: a car stands still only for a reason.  When a tick leaves a car
    with one of the four directions where it was, then its candidate cell is
    off the grid, or it is an intersection whose light, as advanced by this
    tick, is not green for the car, or another car is in the way: one listed
    earlier that ends the tick on the cell, or one listed later that started
    the tick there. *)
Theorem car_stands_still_for_a_reason (self : t) (i : nat) (car : Car.t)
    (dx dy : Z) :
  cars self !! i = Some car →
  unit_delta (Car.direction car) = Some (dx, dy) →
  cars (update self) !! i = Some car →
  _in_bounds self (_get_next_position car) = false
  ∨ (∃ junction,
       intersections self !! _get_next_position car = Some junction
       ∧ Intersection.is_green (Intersection.update_light junction)
           (Car.direction car) = false)
  ∨ (∃ j other,
       ((j < i)%nat ∧ cars (update self) !! j = Some other
        ∨ (i < j)%nat ∧ cars self !! j = Some other)
       ∧ Car.position other = _get_next_position car).
Proof.
  intros Hi Hd Hstay.
  pose proof (cardinal_next_differs car dx dy Hd) as Hne.
  destruct (update_car_cases self i car Hi) as [[_ Hwhy]|(Hm & _)].
  - destruct Hwhy as [Hout|[Hred|Hhit]]; [by left|right; left|right; right].
    + unfold red_light in Hred. simpl in Hred. rewrite lookup_fmap in Hred.
      destruct (intersections self !! _get_next_position car) as [junction|];
        [|done].
      exists junction. split; [done|]. by apply negb_true_iff in Hred.
    + apply collides_spec in Hhit; [|apply lookup_lt_Some in Hi; lia].
      destruct Hhit as [(j & other & Hlt & Hj & Hp)|(j & other & Hle & Hj & Hp)].
      * exists j, other. split; [left; done|done].
      * destruct (decide (j = i)) as [->|Hji]; [congruence|].
        exists j, other. split; [right; split; [lia|done]|done].
  - exfalso. rewrite Hstay in Hm. injection Hm as Hm.
    apply Hne. by rewrite <- move_position, <- Hm.
Qed.

Lemma car_stands_still_for_a_reason_witness :
  _in_bounds (run 1 scenario_engine)
    (_get_next_position (Car.init 0 (2, 0) "E" None None)) = false
  ∨ (∃ junction,
       intersections (run 1 scenario_engine)
         !! _get_next_position (Car.init 0 (2, 0) "E" None None) = Some junction
       ∧ Intersection.is_green (Intersection.update_light junction) "E" = false)
  ∨ (∃ j other,
       ((j < 0)%nat ∧ cars (update (run 1 scenario_engine)) !! j = Some other
        ∨ (0 < j)%nat ∧ cars (run 1 scenario_engine) !! j = Some other)
       ∧ Car.position other = _get_next_position (Car.init 0 (2, 0) "E" None None)).
Proof.
  apply (car_stands_still_for_a_reason (run 1 scenario_engine) 0
           (Car.init 0 (2, 0) "E" None None) 1 0); vm_compute; reflexivity.
Defined.

End Progress.
